(** * The concurrent task-execution toolkit of the healthcare API

    A shallow embedding of
      - internal/concurrent/batch.go    (BatchProcessor, ConcurrentCache),
      - internal/concurrent/pipeline.go (Pipeline),
      - internal/worker/pool.go         (WorkerPool),
    and the properties its specification states about them.

    Conventions.  A Go [int] and a [time.Duration] are 64-bit signed
    integers (amd64/arm64): they are values of [Z] and arithmetic that can
    leave the range is wrapped with [wrap64].  A [time.Time] is an instant
    in nanoseconds, a value of [Z].  A Go [error] is an [option error],
    [None] being [nil].  Goroutines are interleaved by the Go scheduler:
    every choice the scheduler makes is an explicit argument (a schedule,
    an event list, the case a [select] picks). *)

From Stdlib Require Import ZArith Lia List Bool.
From stdpp Require Import base option list gmap strings fin_maps.
Import ListNotations.
Local Open Scope Z_scope.

(** ** Go values *)

Definition wrap64 (z : Z) : Z := (z + 2 ^ 63) mod 2 ^ 64 - 2 ^ 63.

(** [len(s)] of a slice. *)
Definition len {A : Type} (s : list A) : Z := Z.of_nat (length s).

(** [s[i:j]]; out-of-range bounds panic, which is [None]. *)
Definition slice {A : Type} (s : list A) (i j : Z) : option (list A) :=
  if (0 <=? i) && (i <=? j) && (j <=? len s)
  then Some (take (Z.to_nat (j - i)) (drop (Z.to_nat i) s))
  else None.

(** Errors of the toolkit: the two sentinels of pool.go, the two errors of
    package context, and any other error value by its message. *)
Inductive error : Type :=
  | ErrQueueFull
  | ErrNoHandler
  | Canceled
  | DeadlineExceeded
  | Err (msg : string).

(** What a call does: it returns, it panics, it never returns because it
    waits for something that cannot happen, or the model ran out of fuel
    before the loop ended. *)
Inductive outcome (A : Type) : Type :=
  | Ret (a : A)
  | Panic
  | Hang
  | OutOfFuel.
Arguments Ret {A} a.
Arguments Panic {A}.
Arguments Hang {A}.
Arguments OutOfFuel {A}.

(** ** batch.go: ConcurrentCache *)

Record CacheItem (V : Type) : Type := mkCacheItem {
  Value : V;
  ExpiresAt : Z
}.
Arguments mkCacheItem {V} _ _.
Arguments Value {V} _.
Arguments ExpiresAt {V} _.

(** [time.Now().After(ci.ExpiresAt)] with [now] the clock reading. *)
Definition IsExpired {V : Type} (now : Z) (ci : CacheItem V) : bool :=
  ExpiresAt ci <? now.

(** The mutex only serialises the operations: each one is a function of
    the state it finds. *)
Record ConcurrentCache (K : Type) `{Countable K} (V : Type) : Type := mkCache {
  items : gmap K (CacheItem V);
  ttl : Z
}.
Arguments mkCache {K _ _ V} _ _.
Arguments items {K _ _ V} _.
Arguments ttl {K _ _ V} _.

Definition ConcurrentCache_Set `{Countable K} {V : Type}
    (now : Z) (key : K) (value : V) (c : ConcurrentCache K V)
    : ConcurrentCache K V :=
  mkCache (<[key := mkCacheItem value (now + ttl c)]> (items c)) (ttl c).

(** [Get] returns the value, the found flag, and the cache it leaves. *)
Definition ConcurrentCache_Get `{Countable K} {V : Type} (zero : V)
    (now : Z) (key : K) (c : ConcurrentCache K V)
    : (V * bool) * ConcurrentCache K V :=
  match items c !! key with
  | Some item =>
      if IsExpired now item then ((zero, false), c)
      else ((Value item, true), c)
  | None => ((zero, false), c)
  end.

Definition ConcurrentCache_Delete `{Countable K} {V : Type}
    (key : K) (c : ConcurrentCache K V) : ConcurrentCache K V :=
  mkCache (delete key (items c)) (ttl c).

Definition ConcurrentCache_Size `{Countable K} {V : Type}
    (c : ConcurrentCache K V) : Z :=
  Z.of_nat (size (items c)).

(** One tick of the [cleanup] goroutine: every expired item is deleted. *)
Definition cleanup_tick `{Countable K} {V : Type}
    (now : Z) (c : ConcurrentCache K V) : ConcurrentCache K V :=
  mkCache (filter (fun kv => IsExpired now kv.2 = false) (items c)) (ttl c).

(** ** batch.go: BatchProcessor *)

(** The processing function is the caller's: it is taken as a function of
    the batch that returns ([context] deadlines show as the error it
    returns). *)
Record BatchProcessor (T : Type) : Type := mkBatchProcessor {
  batchSize : Z;
  maxWorkers : Z;
  processor : list T -> option error
}.
Arguments mkBatchProcessor {T} _ _ _.
Arguments batchSize {T} _.
Arguments maxWorkers {T} _.
Arguments processor {T} _.

(** The loop of [createBatches], from index [i] with [batches] built so
    far.  Each iteration uses one unit of fuel.  The sums stay in the
    range of [int]: [i] is 0 in the first iteration, and in a later one
    both [i] and [bs] are below [len(items)]. *)
Fixpoint createBatches_loop {T : Type} (fuel : nat) (bs : Z)
    (items : list T) (i : Z) (batches : list (list T))
    : outcome (list (list T)) :=
  if i <? len items then
    match fuel with
    | O => OutOfFuel
    | S fuel' =>
        let end0 := i + bs in
        let end1 := if end0 >? len items then len items else end0 in
        match slice items i end1 with
        | Some b => createBatches_loop fuel' bs items (i + bs) (batches ++ [b])
        | None => Panic
        end
    end
  else Ret batches.

Definition createBatches {T : Type} (fuel : nat) (bp : BatchProcessor T)
    (items : list T) : outcome (list (list T)) :=
  createBatches_loop fuel (batchSize bp) items 0 [].

(** The batch goroutines.  [sched] is the order in which the scheduler
    lets them through their body; a goroutine calls the processing
    function on its batch and sends a non-nil error on [errChan].  The
    result is the calls made and the content of [errChan], both in that
    order. *)
Fixpoint run_batches {T : Type} (f : list T -> option error)
    (batches : list (list T)) (sched : list nat)
    : list (list T) * list error :=
  match sched with
  | [] => ([], [])
  | i :: rest =>
      let '(calls, errs) := run_batches f batches rest in
      match batches !! i with
      | Some b =>
          match f b with
          | Some e => (b :: calls, e :: errs)
          | None => (b :: calls, errs)
          end
      | None => (calls, errs)
      end
  end.

(** [Process]: the value returned, and the calls of the processing
    function.  [make(chan struct{}, n)] panics for a negative [n]; with
    [n = 0] no goroutine ever gets past the semaphore and [wg.Wait] does
    not return. *)
Definition BatchProcessor_Process {T : Type} (sched : list nat) (fuel : nat)
    (bp : BatchProcessor T) (items : list T)
    : outcome (option error) * list (list T) :=
  if len items =? 0 then (Ret None, [])
  else
    match createBatches fuel bp items with
    | Ret batches =>
        if maxWorkers bp <? 0 then (Panic, [])
        else if maxWorkers bp =? 0 then (Hang, [])
        else
          let '(calls, errors) := run_batches (processor bp) batches sched in
          (Ret (head errors), calls)
    | Panic => (Panic, [])
    | Hang => (Hang, [])
    | OutOfFuel => (OutOfFuel, [])
    end.

(** Modelled after the claim's words, to compare with the code: the error
    of the failing batch of least index. *)
Definition first_error_by_index {T : Type} (f : list T -> option error)
    (batches : list (list T)) : option error :=
  head (omap f batches).

(** ** pipeline.go *)

(** A stage is the caller's code over two channels.  It is taken by what
    it does to its streams: from the items it receives until its input is
    closed, the items it sends and the error it returns. *)
Definition Stage (T : Type) : Type := list T -> list T * option error.

Record Pipeline (T : Type) : Type := mkPipeline {
  stages : list (Stage T)
}.
Arguments mkPipeline {T} _.
Arguments stages {T} _.

Definition NewPipeline {T : Type} : Pipeline T := mkPipeline [].

Definition AddStage {T : Type} (stage : Stage T) (p : Pipeline T) : Pipeline T :=
  mkPipeline (stages p ++ [stage]).

(** Stage [i] reads what stage [i-1] wrote: the output of the last stage
    and what each stage returned, by stage index. *)
Fixpoint run_stages {T : Type} (sts : list (Stage T)) (input : list T)
    : list T * list (option error) :=
  match sts with
  | [] => (input, [])
  | st :: rest =>
      let '(out, e) := st input in
      let '(final, rets) := run_stages rest out in
      (final, e :: rets)
  end.

(** The scheduler's part in one call of [Process]: the order in which the
    stage goroutines finish, the number of items the feeder pushed before
    it saw [ctx.Done()] (all of them when the context is never
    cancelled), and the number of items the collector goroutine had
    appended to [results] when [wg.Wait] returned. *)
Record PipelineRun : Type := mkRun {
  finish_order : list nat;
  fed : nat;
  collected : nat
}.

(** The content of [errChan] after [wg.Wait]: the non-nil returns, in the
    order the stages finished. *)
Definition errChan_of (rets : list (option error)) (order : list nat) : list error :=
  omap (fun i => mjoin (rets !! i)) order.

(** What the stages of a call return, by index; none is started when
    making the channels panics. *)
Definition stage_returns {T : Type} (r : PipelineRun) (p : Pipeline T)
    (items : list T) (bufferSize : Z) : list (option error) :=
  if bufferSize <? 0 then []
  else (run_stages (stages p) (take (fed r) items)).2.

Definition Pipeline_Process {T : Type} (r : PipelineRun) (p : Pipeline T)
    (items : list T) (bufferSize : Z) : outcome (list T * option error) :=
  if len (stages p) =? 0 then Ret (items, None)
  else if bufferSize <? 0 then Panic
  else
    let '(final, rets) := run_stages (stages p) (take (fed r) items) in
    match errChan_of rets (finish_order r) with
    | e :: _ => Ret ([], Some e)
    | [] => Ret (take (collected r) final, None)
    end.

(** ** Go channels *)

(** The state of a channel as the Go runtime keeps it: the buffer, the
    goroutines parked in a receive, the values of the goroutines parked in
    a send, and the values already handed to a parked receiver that has
    not run again yet. *)
Record chan (A : Type) : Type := mkChan {
  cap : Z;
  buf : list A;
  recvq : nat;
  sendq : list A;
  handed : list A;
  closed : bool
}.
Arguments mkChan {A} _ _ _ _ _ _.
Arguments cap {A} _.
Arguments buf {A} _.
Arguments recvq {A} _.
Arguments sendq {A} _.
Arguments handed {A} _.
Arguments closed {A} _.

(** [make(chan A, n)] panics for a negative [n]. *)
Definition make_chan {A : Type} (n : Z) : outcome (chan A) :=
  if n <? 0 then Panic else Ret (mkChan n [] 0%nat [] [] false).

Inductive send_result (A : Type) : Type :=
  | SendPanic
  | Sent (c : chan A)
  | SendWouldBlock.
Arguments SendPanic {A}.
Arguments Sent {A} c.
Arguments SendWouldBlock {A}.

(** One attempt to send without parking: a send on a closed channel
    panics, a parked receiver is handed the value, a free buffer slot
    takes it, and otherwise the send cannot proceed. *)
Definition try_send {A : Type} (c : chan A) (v : A) : send_result A :=
  if closed c then SendPanic
  else if (0 <? recvq c)%nat then
    Sent (mkChan (cap c) (buf c) (pred (recvq c)) (sendq c) (handed c ++ [v]) false)
  else if len (buf c) <? cap c then
    Sent (mkChan (cap c) (buf c ++ [v]) (recvq c) (sendq c) (handed c) false)
  else SendWouldBlock.

(** The sender parks with its value. *)
Definition park_send {A : Type} (c : chan A) (v : A) : chan A :=
  mkChan (cap c) (buf c) (recvq c) (sendq c ++ [v]) (handed c) (closed c).

Inductive recv_result (A : Type) : Type :=
  | Received (v : A) (c : chan A) (woken : option A)
  | RecvClosed
  | RecvWouldBlock.
Arguments Received {A} v c woken.
Arguments RecvClosed {A}.
Arguments RecvWouldBlock {A}.

(** One attempt to receive without parking.  Taking an element lets the
    first parked sender complete its send: [woken] is its value. *)
Definition try_recv {A : Type} (c : chan A) : recv_result A :=
  match buf c, sendq c with
  | v :: rest, s :: ss =>
      Received v (mkChan (cap c) (rest ++ [s]) (recvq c) ss (handed c) (closed c)) (Some s)
  | v :: rest, [] =>
      Received v (mkChan (cap c) rest (recvq c) [] (handed c) (closed c)) None
  | [], s :: ss =>
      Received s (mkChan (cap c) [] (recvq c) ss (handed c) (closed c)) (Some s)
  | [], [] => if closed c then RecvClosed else RecvWouldBlock
  end.

Definition park_recv {A : Type} (c : chan A) : chan A :=
  mkChan (cap c) (buf c) (S (recvq c)) (sendq c) (handed c) (closed c).

(** A parked receiver that was handed a value runs again and takes it. *)
Definition take_handed {A : Type} (c : chan A) : option (A * chan A) :=
  match handed c with
  | v :: rest => Some (v, mkChan (cap c) (buf c) (recvq c) (sendq c) rest (closed c))
  | [] => None
  end.

(** The parked receivers leave (they are woken by another case of their
    select, or by the close of the channel). *)
Definition wake_receivers {A : Type} (c : chan A) : chan A :=
  mkChan (cap c) (buf c) 0%nat (sendq c) (handed c) (closed c).

(** [close(c)]: closing a closed channel panics, and so does every sender
    parked on the channel. *)
Definition chan_close {A : Type} (c : chan A) : outcome (chan A) :=
  if closed c then Panic
  else match sendq c with
       | [] => Ret (mkChan (cap c) (buf c) 0%nat [] (handed c) true)
       | _ :: _ => Panic
       end.

(** The channel cannot take a value at once: the buffer holds [cap]
    elements and no receiver is parked. *)
Definition chan_full {A : Type} (c : chan A) : Prop :=
  len (buf c) = cap c /\ recvq c = 0%nat.

(** ** pool.go *)

Record Job : Type := mkJob {
  ID : string;
  Type_ : string;
  Payload : list Byte.byte;
  Retries : Z;
  MaxRetries : Z;
  CreatedAt : Z
}.

Record JobResult : Type := mkJobResult {
  JobID : string;
  Success : bool;
  Error : option error;
  Duration : Z;
  CompletedAt : Z
}.

(** A handler is registered code: [Handle] is taken as a function of the
    job that returns and leaves the job's fields alone, as the handlers of
    handlers.go do. *)
Record JobHandler : Type := mkJobHandler {
  Handle : Job -> option error;
  GetJobType : string
}.

(** [quit] and [ctx_done] tell whether the [quit] channel is closed and
    whether [cancel] was called. *)
Record WorkerPool : Type := mkWorkerPool {
  workers : Z;
  jobQueue : chan Job;
  resultQueue : chan JobResult;
  quit : bool;
  handlers : gmap string JobHandler;
  ctx_done : bool
}.

Definition with_jobQueue (q : chan Job) (wp : WorkerPool) : WorkerPool :=
  mkWorkerPool (workers wp) q (resultQueue wp) (quit wp) (handlers wp) (ctx_done wp).

Definition with_resultQueue (q : chan JobResult) (wp : WorkerPool) : WorkerPool :=
  mkWorkerPool (workers wp) (jobQueue wp) q (quit wp) (handlers wp) (ctx_done wp).

Definition NewWorkerPool (workers queueSize : Z) : outcome WorkerPool :=
  match make_chan queueSize, make_chan queueSize with
  | Ret jq, Ret rq => Ret (mkWorkerPool workers jq rq false ∅ false)
  | _, _ => Panic
  end.

Definition RegisterHandler (handler : JobHandler) (wp : WorkerPool) : WorkerPool :=
  mkWorkerPool (workers wp) (jobQueue wp) (resultQueue wp) (quit wp)
    (<[GetJobType handler := handler]> (handlers wp)) (ctx_done wp).

(** [SubmitJob]: a select over the send on [jobQueue], the receive on
    [ctx.Done()] and a default.  A send on a closed channel is a ready
    case (it panics when taken).  When both cases are ready the runtime
    takes one at random: [pick_send] tells whether it is the send. *)
Definition SubmitJob (pick_send : bool) (wp : WorkerPool) (job : Job)
    : outcome (WorkerPool * option error) :=
  match try_send (jobQueue wp) job, ctx_done wp with
  | SendWouldBlock, false => Ret (wp, Some ErrQueueFull)
  | SendWouldBlock, true => Ret (wp, Some Canceled)
  | Sent q, false => Ret (with_jobQueue q wp, None)
  | SendPanic, false => Panic
  | Sent q, true =>
      if pick_send then Ret (with_jobQueue q wp, None) else Ret (wp, Some Canceled)
  | SendPanic, true =>
      if pick_send then Panic else Ret (wp, Some Canceled)
  end.

Definition Second : Z := 1000000000.

(** [time.Duration(job.Retries*job.Retries) * time.Second]. *)
Definition backoff (retries : Z) : Z :=
  wrap64 (wrap64 (retries * retries) * Second).

(** State of the [processResults] goroutine. *)
Inductive rp_state : Type := RPNotStarted | RPAtRecv | RPParked | RPExited.

(** The pool together with its goroutines and timers.  A worker is at its
    select ([at_select]), parked there ([recvq] of the job queue), handed
    a job ([handed] of the job queue), inside [processJob] ([running],
    with the job and the start time) or parked in the send of line 151
    ([sendq] of the result queue).  The last five fields record what
    happened: the handler calls, the results sent on the result queue,
    the results dropped at line 201, the jobs [SubmitJob] refused, and the
    results [processResults] logged. *)
Record World : Type := mkWorld {
  wp : WorkerPool;
  at_select : nat;
  running : list (Job * Z);
  timers : list (Z * Job);
  rp : rp_state;
  stop_waiting : bool;
  crashed : bool;
  calls : list Job;
  published : list JobResult;
  dropped : list JobResult;
  rejected : list Job;
  processed : list JobResult
}.

Definition with_wp (p : WorkerPool) (w : World) : World :=
  mkWorld p (at_select w) (running w) (timers w) (rp w) (stop_waiting w)
    (crashed w) (calls w) (published w) (dropped w) (rejected w) (processed w).

Definition with_at_select (n : nat) (w : World) : World :=
  mkWorld (wp w) n (running w) (timers w) (rp w) (stop_waiting w)
    (crashed w) (calls w) (published w) (dropped w) (rejected w) (processed w).

Definition with_running (l : list (Job * Z)) (w : World) : World :=
  mkWorld (wp w) (at_select w) l (timers w) (rp w) (stop_waiting w)
    (crashed w) (calls w) (published w) (dropped w) (rejected w) (processed w).

Definition with_timers (l : list (Z * Job)) (w : World) : World :=
  mkWorld (wp w) (at_select w) (running w) l (rp w) (stop_waiting w)
    (crashed w) (calls w) (published w) (dropped w) (rejected w) (processed w).

Definition with_rp (s : rp_state) (w : World) : World :=
  mkWorld (wp w) (at_select w) (running w) (timers w) s (stop_waiting w)
    (crashed w) (calls w) (published w) (dropped w) (rejected w) (processed w).

Definition with_stop_waiting (b : bool) (w : World) : World :=
  mkWorld (wp w) (at_select w) (running w) (timers w) (rp w) b
    (crashed w) (calls w) (published w) (dropped w) (rejected w) (processed w).

Definition crash (w : World) : World :=
  mkWorld (wp w) (at_select w) (running w) (timers w) (rp w) (stop_waiting w)
    true (calls w) (published w) (dropped w) (rejected w) (processed w).

Definition log_call (j : Job) (w : World) : World :=
  mkWorld (wp w) (at_select w) (running w) (timers w) (rp w) (stop_waiting w)
    (crashed w) (calls w ++ [j]) (published w) (dropped w) (rejected w) (processed w).

Definition log_published (r : JobResult) (w : World) : World :=
  mkWorld (wp w) (at_select w) (running w) (timers w) (rp w) (stop_waiting w)
    (crashed w) (calls w) (published w ++ [r]) (dropped w) (rejected w) (processed w).

Definition log_dropped (r : JobResult) (w : World) : World :=
  mkWorld (wp w) (at_select w) (running w) (timers w) (rp w) (stop_waiting w)
    (crashed w) (calls w) (published w) (dropped w ++ [r]) (rejected w) (processed w).

Definition log_rejected (j : Job) (w : World) : World :=
  mkWorld (wp w) (at_select w) (running w) (timers w) (rp w) (stop_waiting w)
    (crashed w) (calls w) (published w) (dropped w) (rejected w ++ [j]) (processed w).

Definition log_processed (r : JobResult) (w : World) : World :=
  mkWorld (wp w) (at_select w) (running w) (timers w) (rp w) (stop_waiting w)
    (crashed w) (calls w) (published w) (dropped w) (rejected w) (processed w ++ [r]).

(** The worker returns from [processJob] to the select of its loop. *)
Definition back_to_select (w : World) : World :=
  with_at_select (S (at_select w)) w.

(** [Job.Retries++]; under the guard [Retries < MaxRetries] the sum is in
    range. *)
Definition incr_retries (job : Job) : Job :=
  mkJob (ID job) (Type_ job) (Payload job) (Retries job + 1) (MaxRetries job)
    (CreatedAt job).

(** The select of lines 198-202: a send that is dropped when it cannot
    proceed. *)
Definition send_or_drop (result : JobResult) (w : World) : outcome World :=
  match try_send (resultQueue (wp w)) result with
  | SendPanic => Panic
  | Sent q => Ret (back_to_select (log_published result (with_wp (with_resultQueue q (wp w)) w)))
  | SendWouldBlock => Ret (back_to_select (log_dropped result w))
  end.

(** The send statement of line 151: the worker parks until the send can
    proceed. *)
Definition send_blocking (result : JobResult) (w : World) : outcome World :=
  match try_send (resultQueue (wp w)) result with
  | SendPanic => Panic
  | Sent q => Ret (back_to_select (log_published result (with_wp (with_resultQueue q (wp w)) w)))
  | SendWouldBlock =>
      Ret (with_wp (with_resultQueue (park_send (resultQueue (wp w)) result) (wp w)) w)
  end.

(** The result of line 151, and the result of lines 168-174 for the value
    [err] the handler returned. *)
Definition no_handler_result (now start : Z) (job : Job) : JobResult :=
  mkJobResult (ID job) false (Some ErrNoHandler) (now - start) now.

Definition handler_result (now start : Z) (job : Job) (err : option error)
    : JobResult :=
  mkJobResult (ID job) (bool_decide (err = None)) err (now - start) now.

(** [processJob], run by a worker that read the clock at [start] when it
    entered and reads [now] once the handler has returned.  The timer that
    [time.AfterFunc] arms is recorded with its delay and the job its
    closure holds. *)
Definition processJob (now : Z) (w : World) (start : Z) (job : Job) : outcome World :=
  match handlers (wp w) !! Type_ job with
  | None => send_blocking (no_handler_result now start job) w
  | Some handler =>
      let err := Handle handler job in
      let w1 := log_call job w in
      let result := handler_result now start job err in
      match err with
      | Some _ =>
          if Retries job <? MaxRetries job then
            let job' := incr_retries job in
            Ret (back_to_select
                   (with_timers (timers w1 ++ [(backoff (Retries job'), job')]) w1))
          else send_or_drop result w1
      | None => send_or_drop result w1
      end
  end.

(** [Start]: [workers] worker goroutines and the result processor. *)
Definition Start (p : WorkerPool) : World :=
  mkWorld p (Z.to_nat (workers p)) [] [] RPAtRecv false false [] [] [] [] [].

(** The worker goroutines that have not returned: what [wg.Wait] waits
    for. *)
Definition alive_workers (w : World) : nat :=
  (at_select w + recvq (jobQueue (wp w)) + length (handed (jobQueue (wp w)))
   + length (running w) + length (sendq (resultQueue (wp w))))%nat.

(** A goroutine calls [SubmitJob]: the job is queued, or refused with an
    error, or the call panics and the program dies. *)
Definition do_submit (pick_send : bool) (job : Job) (w : World) : World :=
  match SubmitJob pick_send (wp w) job with
  | Ret (p, None) => with_wp p w
  | Ret (p, Some _) => log_rejected job (with_wp p w)
  | _ => crash w
  end.

(** The first part of [Stop]: [close(wp.quit)], which wakes the workers
    parked in their select (they return), and [wp.cancel()]; [Stop] then
    waits in [wg.Wait].  Closing [quit] a second time panics. *)
Definition Stop_begin (w : World) : World :=
  if quit (wp w) then crash w
  else
    let p := wp w in
    with_stop_waiting true
      (with_wp (mkWorkerPool (workers p) (wake_receivers (jobQueue p))
                  (resultQueue p) true (handlers p) true) w).

(** The second part of [Stop], once [wg.Wait] has returned: both queues
    are closed, which ends the [range] loop of a parked result
    processor. *)
Definition Stop_end (w : World) : World :=
  match chan_close (jobQueue (wp w)), chan_close (resultQueue (wp w)) with
  | Ret jq, Ret rq =>
      with_stop_waiting false
        (with_rp (match rp w with RPParked => RPExited | s => s end)
           (with_wp (with_resultQueue rq (with_jobQueue jq (wp w))) w))
  | _, _ => crash w
  end.

(** What the Go scheduler, the producers and the clock can make happen
    next. *)
Inductive event : Type :=
  | ESubmit (pick_send : bool) (job : Job)  (* a producer calls SubmitJob *)
  | EWorkerPark                             (* a worker finds no case of its select ready *)
  | EWorkerRecv (now : Z)                   (* a worker's select takes the jobQueue case *)
  | EWorkerResume (now : Z)                 (* a worker that was handed a job runs again *)
  | EWorkerQuit                             (* a worker's select takes the quit case *)
  | EHandlerDone (k : nat) (now : Z)        (* the k-th running worker finishes processJob *)
  | ETimer (k : nat) (pick_send : bool)     (* the k-th armed timer fires *)
  | EResultRecv                             (* processResults receives a result *)
  | EResultPark                             (* processResults finds nothing to receive *)
  | EResultResume                           (* processResults, handed a result, runs again *)
  | EStop                                   (* Stop is called *)
  | EStopWaitDone.                          (* wg.Wait returns in Stop *)

(** One event; [None] when it cannot happen in this state.  Nothing
    happens once the program has died of a panic. *)
Definition step (e : event) (w : World) : option World :=
  if crashed w then None else
  match e with
  | ESubmit pick job => Some (do_submit pick job w)
  | EWorkerPark =>
      match at_select w, try_recv (jobQueue (wp w)), quit (wp w) with
      | S n, RecvWouldBlock, false =>
          Some (with_at_select n (with_wp (with_jobQueue (park_recv (jobQueue (wp w))) (wp w)) w))
      | _, _, _ => None
      end
  | EWorkerRecv now =>
      match at_select w, try_recv (jobQueue (wp w)) with
      | S n, Received job q _ =>
          Some (with_running (running w ++ [(job, now)])
                  (with_at_select n (with_wp (with_jobQueue q (wp w)) w)))
      | S n, RecvClosed => Some (with_at_select n w)
      | _, _ => None
      end
  | EWorkerResume now =>
      match take_handed (jobQueue (wp w)) with
      | Some (job, q) =>
          Some (with_running (running w ++ [(job, now)])
                  (with_wp (with_jobQueue q (wp w)) w))
      | None => None
      end
  | EWorkerQuit =>
      match at_select w, quit (wp w) with
      | S n, true => Some (with_at_select n w)
      | _, _ => None
      end
  | EHandlerDone k now =>
      match running w !! k with
      | Some (job, start) =>
          match processJob now (with_running (delete k (running w)) w) start job with
          | Ret w' => Some w'
          | _ => Some (crash w)
          end
      | None => None
      end
  | ETimer k pick =>
      match timers w !! k with
      | Some (_, job) => Some (do_submit pick job (with_timers (delete k (timers w)) w))
      | None => None
      end
  | EResultRecv =>
      match rp w, try_recv (resultQueue (wp w)) with
      | RPAtRecv, Received r q woken =>
          let w1 := log_processed r (with_wp (with_resultQueue q (wp w)) w) in
          Some (match woken with
                | Some s => back_to_select (log_published s w1)
                | None => w1
                end)
      | RPAtRecv, RecvClosed => Some (with_rp RPExited w)
      | _, _ => None
      end
  | EResultPark =>
      match rp w, try_recv (resultQueue (wp w)) with
      | RPAtRecv, RecvWouldBlock =>
          Some (with_rp RPParked
                  (with_wp (with_resultQueue (park_recv (resultQueue (wp w))) (wp w)) w))
      | _, _ => None
      end
  | EResultResume =>
      match rp w, take_handed (resultQueue (wp w)) with
      | RPParked, Some (r, q) =>
          Some (with_rp RPAtRecv
                  (log_processed r (with_wp (with_resultQueue q (wp w)) w)))
      | _, _ => None
      end
  | EStop => Some (Stop_begin w)
  | EStopWaitDone =>
      if stop_waiting w && bool_decide (alive_workers w = 0%nat)
      then Some (Stop_end w) else None
  end.

Fixpoint exec (evs : list event) (w : World) : option World :=
  match evs with
  | [] => Some w
  | e :: rest => match step e w with Some w' => exec rest w' | None => None end
  end.

(** A pool as the program sets it up before [Start]: made by
    [NewWorkerPool], then handlers registered. *)
Inductive configured : WorkerPool -> Prop :=
  | configured_new workers queueSize p :
      NewWorkerPool workers queueSize = Ret p -> configured p
  | configured_register handler p :
      configured p -> configured (RegisterHandler handler p).

(** The jobs the pool holds: queued (no goroutine ever parks in a send on
    the job queue, so its send queue stays empty), handed to a worker,
    being processed, or waiting in a retry timer. *)
Definition jobs_in (w : World) : list Job :=
  buf (jobQueue (wp w)) ++ sendq (jobQueue (wp w)) ++ handed (jobQueue (wp w))
  ++ (running w).*1 ++ (timers w).*2.

(** The jobs that the producers submit in a list of events. *)
Definition submitted (evs : list event) : list Job :=
  omap (fun e => match e with ESubmit _ j => Some j | _ => None end) evs.

(** The error [Process] returns, by the order in which the batch
    goroutines ran: that of the first failing batch in that order. *)
Definition first_error_in_order {T : Type} (f : list T -> option error)
    (batches : list (list T)) (sched : list nat) : option error :=
  head (omap (fun i => batches !! i ≫= f) sched).

(** A processing function that fails on every batch, with the first item
    of the batch as the message. *)
Definition fail_with_head (b : list string) : option error :=
  match b with
  | x :: _ => Some (Err x)
  | [] => None
  end.

(** The pool [NewWorkerPool] returns for a queue size that is not
    negative. *)
Definition new_pool (workers queueSize : Z) : WorkerPool :=
  mkWorkerPool workers (mkChan queueSize [] 0%nat [] [] false)
    (mkChan queueSize [] 0%nat [] [] false) false ∅ false.

(** A handler for the type [ty] that fails on every job, and one that
    succeeds on every job. *)
Definition always_fails (ty : string) : JobHandler :=
  mkJobHandler (fun _ => Some (Err "failed")) ty.

Definition always_succeeds (ty : string) : JobHandler :=
  mkJobHandler (fun _ => None) ty.

(** A job as a producer makes it, with no payload. *)
Definition new_job (id ty : string) (retries maxRetries : Z) : Job :=
  mkJob id ty [] retries maxRetries 0.

(** The books of a world: the jobs the pool holds, the four logs, and the
    results parked in the blocking send. *)
Record ledger : Type := mkLedger {
  l_jobs : list Job;
  l_calls : list Job;
  l_pub : list JobResult;
  l_drop : list JobResult;
  l_rej : list Job;
  l_parked : list JobResult
}.

Definition ledger_of (w : World) : ledger :=
  mkLedger (jobs_in w) (calls w) (published w) (dropped w) (rejected w)
    (sendq (resultQueue (wp w))).

(** Two ledgers that differ only in the order in which the jobs held are
    listed. *)
Definition same_ledger (a b : ledger) : Prop :=
  l_jobs a ≡ₚ l_jobs b /\ l_calls a = l_calls b /\ l_pub a = l_pub b
  /\ l_drop a = l_drop b /\ l_rej a = l_rej b /\ l_parked a = l_parked b.

(** What one event of a program that has not died does to the books, for
    the registered handlers [H].  [J], [C], [P], [D], [R], [Q] are the
    books before the event. *)
Inductive effect (H : gmap string JobHandler) (e : event)
    (J C : list Job) (P D : list JobResult) (R : list Job) (Q : list JobResult)
    : ledger -> Prop :=
  | eff_none L' :
      same_ledger L' (mkLedger J C P D R Q) -> effect H e J C P D R Q L'
  | eff_unparked s Q0 L' :
      Q = s :: Q0 ->
      same_ledger L' (mkLedger J C (P ++ [s]) D R Q0) -> effect H e J C P D R Q L'
  | eff_submitted pick j L' :
      e = ESubmit pick j ->
      same_ledger L' (mkLedger (j :: J) C P D R Q) -> effect H e J C P D R Q L'
  | eff_refused pick j L' :
      e = ESubmit pick j ->
      same_ledger L' (mkLedger J C P D (R ++ [j]) Q) -> effect H e J C P D R Q L'
  | eff_timer_refused j J0 L' :
      J ≡ₚ j :: J0 ->
      same_ledger L' (mkLedger J0 C P D (R ++ [j]) Q) -> effect H e J C P D R Q L'
  | eff_no_handler_sent job J0 now start L' :
      J ≡ₚ job :: J0 -> H !! Type_ job = None ->
      same_ledger L' (mkLedger J0 C (P ++ [no_handler_result now start job]) D R Q) ->
      effect H e J C P D R Q L'
  | eff_no_handler_parked job J0 now start L' :
      J ≡ₚ job :: J0 -> H !! Type_ job = None ->
      same_ledger L' (mkLedger J0 C P D R (Q ++ [no_handler_result now start job])) ->
      effect H e J C P D R Q L'
  | eff_retry job J0 h L' :
      J ≡ₚ job :: J0 -> H !! Type_ job = Some h ->
      Handle h job <> None -> Retries job < MaxRetries job ->
      same_ledger L' (mkLedger (incr_retries job :: J0) (C ++ [job]) P D R Q) ->
      effect H e J C P D R Q L'
  | eff_final_sent job J0 h now start L' :
      J ≡ₚ job :: J0 -> H !! Type_ job = Some h ->
      Handle h job = None \/ ~ Retries job < MaxRetries job ->
      same_ledger L'
        (mkLedger J0 (C ++ [job])
           (P ++ [handler_result now start job (Handle h job)]) D R Q) ->
      effect H e J C P D R Q L'
  | eff_final_dropped job J0 h now start L' :
      J ≡ₚ job :: J0 -> H !! Type_ job = Some h ->
      Handle h job = None \/ ~ Retries job < MaxRetries job ->
      same_ledger L'
        (mkLedger J0 (C ++ [job]) P
           (D ++ [handler_result now start job (Handle h job)]) R Q) ->
      effect H e J C P D R Q L'.

(** The job with its retry count set to [r]. *)
Definition set_retries (r : Z) (j : Job) : Job :=
  mkJob (ID j) (Type_ j) (Payload j) r (MaxRetries j) (CreatedAt j).

(** The part of the books that is about the job of identifier [jid]. *)
Definition mine_jobs (jid : string) (l : list Job) : list Job :=
  filter (fun j => ID j = jid) l.

Definition mine_results (jid : string) (l : list JobResult) : list JobResult :=
  filter (fun r => JobID r = jid) l.

Definition view (jid : string) (L : ledger) : ledger :=
  mkLedger (mine_jobs jid (l_jobs L)) (mine_jobs jid (l_calls L))
    (mine_results jid (l_pub L)) (mine_results jid (l_drop L))
    (mine_jobs jid (l_rej L)) (mine_results jid (l_parked L)).

(** The life of a job [j0] whose handler always fails, in the books [V]
    about it.  Before it is submitted the books are empty.  Afterwards
    either the pool holds it with a retry count [r] after [r] handler
    calls and nothing else is recorded, or the pool no longer holds it and
    exactly one of three things is recorded: a published result, a dropped
    result (both after [MaxRetries + 1] calls), or a refusal by
    [SubmitJob].  No result about it is ever parked in the blocking send,
    and a published result says [Success = false]. *)
Definition tracked (j0 : Job) (sub : bool) (V : ledger) : Prop :=
  l_parked V = []
  /\ Forall (fun r => Success r = false) (l_pub V)
  /\ if sub then
       (exists r, 0 <= r <= MaxRetries j0
                  /\ l_jobs V = [set_retries r j0] /\ len (l_calls V) = r
                  /\ l_pub V = [] /\ l_drop V = [] /\ l_rej V = [])
       \/ (l_jobs V = []
           /\ (length (l_pub V) + length (l_drop V) + length (l_rej V) = 1)%nat
           /\ len (l_calls V) <= MaxRetries j0 + 1
           /\ (l_rej V = [] -> len (l_calls V) = MaxRetries j0 + 1))
     else l_jobs V = [] /\ l_calls V = [] /\ l_pub V = [] /\ l_drop V = []
          /\ l_rej V = [].

(** What the logs about [j0] always satisfy: at most [MaxRetries + 1]
    handler calls, at most one published result, which says
    [Success = false] and comes after the last of these calls. *)
Definition safe (j0 : Job) (V : ledger) : Prop :=
  len (l_calls V) <= MaxRetries j0 + 1
  /\ (length (l_pub V) <= 1)%nat
  /\ Forall (fun r => Success r = false) (l_pub V)
  /\ (l_pub V <> [] -> len (l_calls V) = MaxRetries j0 + 1).

(** The invariant of a run: the logs about [j0] are safe, and the books
    about [j0] are in order as long as the program has not died. *)
Definition run_inv (j0 : Job) (sub : bool) (w : World) : Prop :=
  safe j0 (view (ID j0) (ledger_of w))
  /\ (crashed w = false -> tracked j0 sub (view (ID j0) (ledger_of w))).

(** The world after a list of events (the world itself when one of them
    cannot happen). *)
Definition world_after (evs : list event) (w : World) : World :=
  default w (exec evs w).

(** The worlds a started pool can get to. *)
Definition reachable (p : WorkerPool) (w : World) : Prop :=
  exists evs, exec evs (Start p) = Some w.

(** What holds of every world a configured pool gets to: the handlers are
    those registered before [Start]; the result queue is closed only once
    every worker has returned; and a receiver is parked on the result
    queue only when its buffer is empty. *)
Record pool_inv (p : WorkerPool) (w : World) : Prop := mk_pool_inv {
  inv_handlers : handlers (wp w) = handlers p;
  inv_closed : closed (resultQueue (wp w)) = true -> alive_workers w = 0%nat;
  inv_recvq : (0 < recvq (resultQueue (wp w)))%nat -> buf (resultQueue (wp w)) = []
}.

(** ** Further operations of batch.go and pool.go *)

(** [Clear]: the map is replaced by a new one. *)
Definition ConcurrentCache_Clear `{Countable K} {V : Type}
    (c : ConcurrentCache K V) : ConcurrentCache K V :=
  mkCache ∅ (ttl c).

(** [NewConcurrentCache]: an empty cache; the [cleanup] goroutine it
    starts is [cleanup_ticker] followed by [cleanup_tick] at every tick. *)
Definition NewConcurrentCache `{Countable K} {V : Type} (ttl : Z)
    : ConcurrentCache K V :=
  mkCache ∅ ttl.

(** The first statement of [cleanup], [time.NewTicker(c.ttl / 2)]: the
    division of a [Duration] truncates toward zero, and [NewTicker] panics
    for an interval that is not positive.  The result is the interval of
    the ticker. *)
Definition cleanup_ticker `{Countable K} {V : Type}
    (c : ConcurrentCache K V) : outcome Z :=
  let d := Z.quot (ttl c) 2 in
  if d <=? 0 then Panic else Ret d.

Record WorkerPoolStats : Type := mkWorkerPoolStats {
  Workers : Z;
  QueuedJobs : Z;
  QueueCapacity : Z;
  PendingResults : Z
}.

(** [GetStats]: [len] of a channel is the number of elements in its
    buffer. *)
Definition GetStats (p : WorkerPool) : WorkerPoolStats :=
  mkWorkerPoolStats (workers p) (len (buf (jobQueue p))) (cap (jobQueue p))
    (len (buf (resultQueue p))).

(** A producer calls [SubmitJob] for each job of a list in turn, with
    no other goroutine running in between; each job comes with the case
    its select picks when two are ready.  The result is the pool left and
    the value each call returned. *)
Fixpoint submit_all (p : WorkerPool) (jobs : list (bool * Job))
    : outcome (WorkerPool * list (option error)) :=
  match jobs with
  | [] => Ret (p, [])
  | (pick, job) :: rest =>
      match SubmitJob pick p job with
      | Ret (p1, e) =>
          match submit_all p1 rest with
          | Ret (p2, es) => Ret (p2, e :: es)
          | Panic => Panic
          | Hang => Hang
          | OutOfFuel => OutOfFuel
          end
      | Panic => Panic
      | Hang => Hang
      | OutOfFuel => OutOfFuel
      end
  end.

(** What holds of a started pool beside [pool_inv]: the configuration
    does not change, the job queue holds at most its capacity, the
    workers that have not returned are at most those started, and as long
    as [Stop] has not been called nothing is cancelled or closed and the
    program has not died; while [Stop] waits both queues are still
    open; the two queues are closed together; and the context is cancelled
    once [quit] is closed. *)
Record pool_bounds (p : WorkerPool) (w : World) : Prop := mk_pool_bounds {
  bnd_workers : workers (wp w) = workers p;
  bnd_cap_jobs : cap (jobQueue (wp w)) = cap (jobQueue p);
  bnd_cap_results : cap (resultQueue (wp w)) = cap (resultQueue p);
  bnd_jobs : len (buf (jobQueue (wp w))) <= cap (jobQueue (wp w));
  bnd_alive : (alive_workers w <= Z.to_nat (workers p))%nat;
  bnd_running :
    quit (wp w) = false ->
    ctx_done (wp w) = false /\ closed (jobQueue (wp w)) = false
    /\ closed (resultQueue (wp w)) = false /\ stop_waiting w = false
    /\ crashed w = false;
  bnd_waiting :
    stop_waiting w = true ->
    closed (jobQueue (wp w)) = false /\ closed (resultQueue (wp w)) = false;
  bnd_closed : closed (jobQueue (wp w)) = closed (resultQueue (wp w));
  bnd_cancel : quit (wp w) = true -> ctx_done (wp w) = true
}.

(** The identifiers the books account for: those of the jobs the pool
    holds and of the jobs refused, and those of the results published,
    dropped or parked in the blocking send. *)
Definition ids_of (L : ledger) : list string :=
  (ID <$> l_jobs L) ++ (ID <$> l_rej L) ++ (JobID <$> l_pub L)
  ++ (JobID <$> l_drop L) ++ (JobID <$> l_parked L).

(** The result queue has one receiver, [processResults]: the results
    sent are those it has logged, then the one it was handed while parked,
    then those in the buffer; a receiver is parked only when
    [processResults] is, with nothing handed and nothing buffered. *)
Record results_fifo (w : World) : Prop := mk_results_fifo {
  fifo_order :
    published w
    = processed w ++ handed (resultQueue (wp w)) ++ buf (resultQueue (wp w));
  fifo_recvq :
    recvq (resultQueue (wp w)) = 0%nat
    \/ (recvq (resultQueue (wp w)) = 1%nat /\ rp w = RPParked
        /\ handed (resultQueue (wp w)) = [] /\ buf (resultQueue (wp w)) = []);
  fifo_handed :
    handed (resultQueue (wp w)) = []
    \/ (rp w = RPParked /\ recvq (resultQueue (wp w)) = 0%nat
        /\ exists r, handed (resultQueue (wp w)) = [r])
    \/ (rp w = RPExited /\ recvq (resultQueue (wp w)) = 0%nat)
}.

(** * Properties *)

(** ** ConcurrentCache *)

Section cache.
Context `{Countable K} {V : Type} (zero : V).
Implicit Types (c : ConcurrentCache K V) (k : K) (v : V) (now t : Z).

Lemma Set_lookup c now k v :
  items (ConcurrentCache_Set now k v c) !! k
  = Some (mkCacheItem v (now + ttl c)).
Proof. unfold ConcurrentCache_Set; simpl. apply lookup_insert_eq. Qed.

Lemma Set_ttl c now k v : ttl (ConcurrentCache_Set now k v c) = ttl c.
Proof. reflexivity. Qed.

Lemma Get_pure c t k : (ConcurrentCache_Get zero t k c).2 = c.
Proof.
  unfold ConcurrentCache_Get.
  destruct (items c !! k) as [item|]; [destruct (IsExpired t item)|]; reflexivity.
Qed.

Lemma Get_live c t k item :
  items c !! k = Some item -> t <= ExpiresAt item ->
  (ConcurrentCache_Get zero t k c).1 = (Value item, true).
Proof.
  intros Hk Ht. unfold ConcurrentCache_Get, IsExpired. rewrite Hk.
  destruct (Z.ltb_spec (ExpiresAt item) t); [lia | reflexivity].
Qed.

Lemma Get_expired c t k item :
  items c !! k = Some item -> ExpiresAt item < t ->
  (ConcurrentCache_Get zero t k c).1 = (zero, false).
Proof.
  intros Hk Ht. unfold ConcurrentCache_Get, IsExpired. rewrite Hk.
  destruct (Z.ltb_spec (ExpiresAt item) t); [reflexivity | lia].
Qed.

(** The sweep leaves an entry that has not expired where it is. *)
Lemma cleanup_tick_keeps c t k item :
  items c !! k = Some item -> t <= ExpiresAt item ->
  items (cleanup_tick t c) !! k = Some item.
Proof.
  intros Hk Ht. unfold cleanup_tick; simpl.
  apply map_lookup_filter_Some. split; [done|].
  simpl. unfold IsExpired. apply Z.ltb_ge. lia.
Qed.

(** The sweep removes an expired entry. *)
Lemma cleanup_tick_removes c t k item :
  items c !! k = Some item -> ExpiresAt item < t ->
  items (cleanup_tick t c) !! k = None.
Proof.
  intros Hk Ht. unfold cleanup_tick; simpl.
  apply map_lookup_filter_None. right. intros x Hx.
  rewrite Hk in Hx. injection Hx as <-. simpl. unfold IsExpired.
  destruct (Z.ltb_spec (ExpiresAt item) t); [discriminate | lia].
Qed.

(** C9.  [Set(k, v)] at time [now] stores the entry [(v, now + ttl)].
    A [Get(k)] at a time [t] that is not after [now + ttl] returns
    [(v, true)].  A [Get(k)] at a time [t] after [now + ttl], with no
    sweep in between, returns [(zero, false)] and leaves the cache as it
    was: the expired entry is still in the map and [Size] is the
    same. *)
Theorem cache_set_then_get c now t k v :
  let c' := ConcurrentCache_Set now k v c in
  items c' !! k = Some (mkCacheItem v (now + ttl c))
  /\ (t <= now + ttl c ->
      ConcurrentCache_Get zero t k c' = ((v, true), c'))
  /\ (now + ttl c < t ->
      ConcurrentCache_Get zero t k c' = ((zero, false), c')
      /\ items (ConcurrentCache_Get zero t k c').2 !! k
         = Some (mkCacheItem v (now + ttl c))
      /\ ConcurrentCache_Size (ConcurrentCache_Get zero t k c').2
         = ConcurrentCache_Size c').
Proof.
  intros c'. pose proof (Set_lookup c now k v) as Hk. fold c' in Hk.
  split; [exact Hk|]. split.
  - intros Ht. apply injective_projections; simpl.
    + exact (Get_live c' t k _ Hk Ht).
    + apply Get_pure.
  - intros Ht. rewrite (surjective_pairing (ConcurrentCache_Get zero t k c')).
    rewrite Get_pure, (Get_expired c' t k _ Hk Ht). auto.
Qed.
End cache.

(** The theorem at a cache with a ttl of 5: written at time 100, read at
    times 105 and 106. *)
Lemma cache_set_then_get_witness :
  let c : ConcurrentCache string Z := mkCache ∅ 5 in
  let c' := ConcurrentCache_Set 100 "k"%string 7 c in
  ConcurrentCache_Get 0 105 "k"%string c' = ((7, true), c')
  /\ ConcurrentCache_Get 0 106 "k"%string c' = ((0, false), c').
Proof.
  intros c c'.
  destruct (cache_set_then_get 0 c 100 105 "k"%string 7) as (_ & Hlive & _).
  destruct (cache_set_then_get 0 c 100 106 "k"%string 7) as (_ & _ & Hdead).
  split.
  - apply Hlive. simpl. lia.
  - apply Hdead. simpl. lia.
Defined.

(** ** BatchProcessor *)

Section batch.
Context {T : Type}.
Implicit Types (items b : list T) (batches : list (list T)) (bp : BatchProcessor T).

Lemma slice_take_drop items i j :
  0 <= i -> i <= j -> j <= len items ->
  slice items i j = Some (take (Z.to_nat (j - i)) (drop (Z.to_nat i) items)).
Proof.
  intros Hi Hj Hl. unfold slice.
  destruct (Z.leb_spec 0 i); [|lia].
  destruct (Z.leb_spec i j); [|lia].
  destruct (Z.leb_spec j (len items)); [|lia]. reflexivity.
Qed.

(** With a positive batch size and a unit of fuel per remaining item the
    loop ends, and the batches it adds are the rest of the input, cut
    every [bs] items. *)
Lemma createBatches_loop_spec bs items fuel :
  0 < bs ->
  forall i acc,
    0 <= i -> (Z.to_nat (len items - i) <= fuel)%nat ->
    exists bl,
      createBatches_loop fuel bs items i acc = Ret (acc ++ bl)
      /\ concat bl = drop (Z.to_nat i) items
      /\ Forall (fun b => 0 < len b <= bs) bl
      /\ (forall k b, (S k < length bl)%nat -> bl !! k = Some b -> len b = bs).
Proof.
  intros Hbs. induction fuel as [|fuel IH]; intros i acc Hi Hfuel.
  - exists []. simpl.
    destruct (Z.ltb_spec i (len items)); [lia|].
    rewrite app_nil_r, drop_ge by (unfold len in *; lia).
    repeat split; [constructor | simpl; lia].
  - simpl. destruct (Z.ltb_spec i (len items)) as [Hlt|Hge].
    + set (end1 := if i + bs >? len items then len items else i + bs).
      assert (Hend : i < end1 <= len items /\ end1 <= i + bs
                     /\ (end1 < i + bs -> end1 = len items)).
      { subst end1. destruct (Z.gtb_spec (i + bs) (len items)); lia. }
      rewrite slice_take_drop by lia.
      set (b := take (Z.to_nat (end1 - i)) (drop (Z.to_nat i) items)).
      assert (Hlenb : len b = end1 - i).
      { subst b. unfold len in *. rewrite length_take, length_drop. lia. }
      destruct (IH (i + bs) (acc ++ [b])) as (bl & Heq & Hcat & Hall & Hfull);
        [lia | lia |].
      exists (b :: bl). rewrite Heq, <- app_assoc. simpl.
      split; [reflexivity|]. split; [|split].
      * rewrite Hcat. subst b.
        destruct (Z.ltb_spec end1 (i + bs)) as [Hshort|Hexact].
        -- rewrite (drop_ge items (Z.to_nat (i + bs))) by (unfold len in *; lia).
           rewrite app_nil_r. apply take_ge.
           rewrite length_drop. unfold len in *. lia.
        -- replace (Z.to_nat (i + bs)) with (Z.to_nat i + Z.to_nat (end1 - i))%nat by lia.
           rewrite <- drop_drop. apply take_drop.
      * constructor; [lia | exact Hall].
      * intros k b' Hk Hb'. destruct k as [|k]; simpl in Hk, Hb'.
        -- injection Hb' as <-.
           destruct (Z.ltb_spec end1 (i + bs)) as [Hshort|Hexact]; [|lia].
           exfalso. destruct bl as [|b1 bl']; [simpl in Hk; lia|].
           apply Forall_cons in Hall as [Hb1 _].
           assert (Hd : concat (b1 :: bl') = []).
           { rewrite Hcat. apply drop_ge.
             destruct Hend as (_ & _ & Hend). specialize (Hend Hshort).
             unfold len in *. lia. }
           simpl in Hd. apply app_eq_nil in Hd as [-> _].
           unfold len in Hb1. simpl in Hb1. lia.
        -- apply (Hfull k b'); [lia | exact Hb'].
    + exists []. rewrite app_nil_r, drop_ge by (unfold len in *; lia).
      repeat split; [constructor | simpl; lia].
Qed.

Lemma createBatches_spec bp items fuel :
  0 < batchSize bp -> (length items <= fuel)%nat ->
  exists batches,
    createBatches fuel bp items = Ret batches
    /\ concat batches = items
    /\ Forall (fun b => 0 < len b <= batchSize bp) batches
    /\ (forall k b, (S k < length batches)%nat -> batches !! k = Some b ->
                    len b = batchSize bp).
Proof.
  intros Hbs Hfuel.
  destruct (createBatches_loop_spec (batchSize bp) items fuel Hbs 0 [])
    as (bl & Heq & Hcat & Hall & Hfull); [lia | unfold len; lia |].
  exists bl. unfold createBatches. rewrite Heq. simpl in *. auto.
Qed.

(** A batch size of zero: the loop never ends. *)
Lemma createBatches_loop_zero items fuel :
  forall i acc, 0 <= i < len items ->
    createBatches_loop fuel 0 items i acc = OutOfFuel.
Proof.
  induction fuel as [|fuel IH]; intros i acc Hi; simpl;
    destruct (Z.ltb_spec i (len items)); try lia; [reflexivity|].
  destruct (Z.gtb_spec (i + 0) (len items)); [lia|].
  rewrite slice_take_drop by lia. rewrite Z.add_0_r. apply IH. lia.
Qed.

Lemma run_batches_calls (f : list T -> option error) batches sched :
  (run_batches f batches sched).1 = omap (fun i => batches !! i) sched.
Proof.
  induction sched as [|i rest IH]; [reflexivity|]. simpl.
  destruct (run_batches f batches rest) as [calls errs]. simpl in IH.
  destruct (batches !! i) as [b|]; [|exact IH].
  destruct (f b); simpl; by rewrite IH.
Qed.

Lemma run_batches_errors (f : list T -> option error) batches sched :
  (run_batches f batches sched).2 = omap (fun i => batches !! i ≫= f) sched.
Proof.
  induction sched as [|i rest IH]; [reflexivity|]. simpl.
  destruct (run_batches f batches rest) as [calls errs]. simpl in IH.
  destruct (batches !! i) as [b|]; simpl; [|exact IH].
  destruct (f b); simpl; by rewrite IH.
Qed.

Lemma omap_after_fmap {A B C : Type} (g : A -> B) (h : B -> option C) (l : list A) :
  omap h (g <$> l) = omap (fun x => h (g x)) l.
Proof.
  induction l as [|x l IH]; [reflexivity|]. csimpl.
  destruct (h (g x)); by rewrite IH.
Qed.

Lemma omap_lookup_seq {A : Type} (l : list A) :
  omap (fun i => l !! i) (seq 0 (length l)) = l.
Proof.
  induction l as [|x l IH]; [reflexivity|]. simpl.
  rewrite <- fmap_S_seq, omap_after_fmap. f_equal. exact IH.
Qed.

Lemma omap_bind_lookup_seq {A B : Type} (g : A -> option B) (l : list A) :
  omap (fun i => l !! i ≫= g) (seq 0 (length l)) = omap g l.
Proof.
  induction l as [|x l IH]; [reflexivity|]. simpl.
  rewrite <- fmap_S_seq, omap_after_fmap.
  destruct (g x); simpl; f_equal; exact IH.
Qed.

(** When every batch goroutine runs once, every batch is processed once
    and the errors recorded are those of the failing batches. *)
Lemma run_batches_perm (f : list T -> option error) batches sched :
  sched ≡ₚ seq 0 (length batches) ->
  (run_batches f batches sched).1 ≡ₚ batches
  /\ (run_batches f batches sched).2 ≡ₚ omap f batches.
Proof.
  intros Hp. rewrite run_batches_calls, run_batches_errors. split.
  - rewrite Hp. by rewrite omap_lookup_seq.
  - rewrite Hp. by rewrite omap_bind_lookup_seq.
Qed.

Lemma Process_run sched fuel bp items batches :
  items <> [] -> 0 < maxWorkers bp ->
  createBatches fuel bp items = Ret batches ->
  BatchProcessor_Process sched fuel bp items
  = (Ret (first_error_in_order (processor bp) batches sched),
     omap (fun i => batches !! i) sched).
Proof.
  intros Hne Hmw Hb. unfold BatchProcessor_Process.
  destruct (Z.eqb_spec (len items) 0) as [H0|_].
  { destruct items; [done | unfold len in H0; simpl in H0; lia]. }
  rewrite Hb.
  destruct (Z.ltb_spec (maxWorkers bp) 0); [lia|].
  destruct (Z.eqb_spec (maxWorkers bp) 0); [lia|].
  pose proof (run_batches_calls (processor bp) batches sched) as Hc.
  pose proof (run_batches_errors (processor bp) batches sched) as He.
  destruct (run_batches (processor bp) batches sched) as [calls errs].
  simpl in *. subst. reflexivity.
Qed.

(** [2*bs + 1] items make three batches, the last of one item. *)
Lemma three_batches bs items batches :
  0 < bs -> len items = 2 * bs + 1 ->
  concat batches = items ->
  Forall (fun b => 0 < len b <= bs) batches ->
  (forall k b, (S k < length batches)%nat -> batches !! k = Some b -> len b = bs) ->
  exists b0 b1 x, batches = [b0; b1; [x]] /\ len b0 = bs /\ len b1 = bs.
Proof.
  intros Hbs Hlen Hcat Hall Hfull.
  assert (Hsum : len items = len (concat batches)) by (by rewrite Hcat).
  unfold len in *.
  destruct batches as [|b0 [|b1 [|b2 [|b3 rest]]]]; simpl in Hsum;
    rewrite ?length_app in Hsum; simpl in Hsum.
  - lia.
  - apply Forall_cons in Hall as [H0 _]. lia.
  - apply Forall_cons in Hall as [H0 [H1 _]%Forall_cons].
    pose proof (Hfull 0%nat b0 ltac:(simpl; lia) eq_refl). lia.
  - apply Forall_cons in Hall as [H0 [H1 [H2 _]%Forall_cons]%Forall_cons].
    pose proof (Hfull 0%nat b0 ltac:(simpl; lia) eq_refl).
    pose proof (Hfull 1%nat b1 ltac:(simpl; lia) eq_refl).
    destruct b2 as [|x [|y b2]]; simpl in *; try lia.
    exists b0, b1, x. auto.
  - apply Forall_cons in Hall as [H0 [H1 [H2 [H3 _]%Forall_cons]%Forall_cons]%Forall_cons].
    pose proof (Hfull 0%nat b0 ltac:(simpl; lia) eq_refl).
    pose proof (Hfull 1%nat b1 ltac:(simpl; lia) eq_refl).
    pose proof (Hfull 2%nat b2 ltac:(simpl; lia) eq_refl). lia.
Qed.
End batch.

Lemma omap_nil_Forall {A B : Type} (g : A -> option B) (l : list A) :
  omap g l = [] <-> Forall (fun x => g x = None) l.
Proof.
  induction l as [|x l IH]; simpl.
  - split; [constructor | reflexivity].
  - destruct (g x) eqn:Hx.
    + split; [discriminate | intros [Hx' _]%Forall_cons; congruence].
    + rewrite IH. split; [by constructor | by intros [_ ?]%Forall_cons].
Qed.

(** C6, as the code has it.  An empty input returns nil at once and calls
    nothing.  With a batch size and a worker bound of at least one, a
    non-empty input is cut in input order into batches whose
    concatenation is the input, each of one to [batchSize] items and all
    but the last of exactly [batchSize]; each batch is the argument of
    one call of the processing function; and [2*batchSize + 1] items make
    three batches, hence three calls, the last batch of one item. *)
Theorem batch_partition {T : Type} (bp : BatchProcessor T) (items : list T)
    (sched : list nat) (fuel : nat) :
  BatchProcessor_Process sched fuel bp [] = (Ret None, [])
  /\ (0 < batchSize bp -> 0 < maxWorkers bp -> (length items <= fuel)%nat ->
      items <> [] ->
      exists batches,
        createBatches fuel bp items = Ret batches
        /\ concat batches = items
        /\ Forall (fun b => 0 < len b <= batchSize bp) batches
        /\ (forall k b, (S k < length batches)%nat -> batches !! k = Some b ->
                        len b = batchSize bp)
        /\ (sched ≡ₚ seq 0 (length batches) ->
            exists r, (BatchProcessor_Process sched fuel bp items).1 = Ret r
                      /\ (BatchProcessor_Process sched fuel bp items).2 ≡ₚ batches)
        /\ (len items = 2 * batchSize bp + 1 ->
            exists b0 b1 x, batches = [b0; b1; [x]]
                            /\ len b0 = batchSize bp /\ len b1 = batchSize bp)).
Proof.
  split; [reflexivity|]. intros Hbs Hmw Hfuel Hne.
  destruct (createBatches_spec bp items fuel Hbs Hfuel)
    as (batches & Hb & Hcat & Hall & Hfull).
  exists batches. repeat split; try assumption.
  - intros Hp. rewrite (Process_run sched fuel bp items batches Hne Hmw Hb). simpl.
    eexists; split; [reflexivity|].
    rewrite Hp. by rewrite omap_lookup_seq.
  - intros Hlen. exact (three_batches _ _ _ Hbs Hlen Hcat Hall Hfull).
Qed.

(** Five integers in batches of two, the goroutines running in index
    order. *)
Lemma batch_partition_witness :
  exists batches,
    createBatches 5 (mkBatchProcessor 2 1 (fun _ : list Z => None)) [1; 2; 3; 4; 5]
    = Ret batches
    /\ concat batches = [1; 2; 3; 4; 5]
    /\ exists b0 b1 x, batches = [b0; b1; [x]].
Proof.
  destruct (batch_partition (mkBatchProcessor 2 1 (fun _ : list Z => None))
              [1; 2; 3; 4; 5] [0; 1; 2]%nat 5) as [_ Hp].
  destruct Hp as (batches & Hb & Hcat & _ & _ & _ & H3);
    [simpl; lia | simpl; lia | simpl; lia | discriminate |].
  exists batches. split; [exact Hb|]. split; [exact Hcat|].
  destruct H3 as (b0 & b1 & x & -> & _); [reflexivity|]. eauto.
Defined.

(** C6 as stated fails for a batch size that is not positive: with a batch
    size of zero [createBatches] never returns, and with a negative one
    the slice expression panics. *)
Lemma batch_partition_counterexample :
  (forall fuel,
     (BatchProcessor_Process [0%nat] fuel
        (mkBatchProcessor 0 1 (fun _ : list Z => None)) [7]).1 = OutOfFuel)
  /\ (BatchProcessor_Process [0%nat] 1
        (mkBatchProcessor (-1) 1 (fun _ : list Z => None)) [7]).1 = Panic.
Proof.
  split; [|reflexivity]. intros fuel. unfold BatchProcessor_Process, createBatches.
  simpl. rewrite createBatches_loop_zero; [reflexivity | unfold len; simpl; lia].
Qed.

(** C7, as the code has it.  With a batch size and a worker bound of at
    least one and every batch goroutine run once, every batch is
    processed once whatever fails, and [Process] returns the error that
    was recorded first: that of the first failing batch in the order the
    goroutines ran, which is the error of some failing batch, and nil
    exactly when no batch fails.  When the goroutines run in index order
    it is the error of the failing batch of least index. *)
Theorem batch_first_error {T : Type} (bp : BatchProcessor T) (items : list T)
    (sched : list nat) (fuel : nat) :
  0 < batchSize bp -> 0 < maxWorkers bp -> (length items <= fuel)%nat ->
  items <> [] ->
  exists batches,
    createBatches fuel bp items = Ret batches
    /\ first_error_in_order (processor bp) batches (seq 0 (length batches))
       = first_error_by_index (processor bp) batches
    /\ (sched ≡ₚ seq 0 (length batches) ->
        (BatchProcessor_Process sched fuel bp items).2 ≡ₚ batches
        /\ (BatchProcessor_Process sched fuel bp items).1
           = Ret (first_error_in_order (processor bp) batches sched)
        /\ (first_error_in_order (processor bp) batches sched = None
            <-> Forall (fun b => processor bp b = None) batches)
        /\ (forall e, first_error_in_order (processor bp) batches sched = Some e ->
                      exists b, b ∈ batches /\ processor bp b = Some e)).
Proof.
  intros Hbs Hmw Hfuel Hne.
  destruct (createBatches_spec bp items fuel Hbs Hfuel) as (batches & Hb & _).
  exists batches. split; [exact Hb|]. split.
  { unfold first_error_in_order, first_error_by_index.
    by rewrite omap_bind_lookup_seq. }
  intros Hp. rewrite (Process_run sched fuel bp items batches Hne Hmw Hb). simpl.
  assert (He : omap (fun i => batches !! i ≫= processor bp) sched
               ≡ₚ omap (processor bp) batches).
  { rewrite Hp. by rewrite omap_bind_lookup_seq. }
  split; [|split; [reflexivity|split]].
  - rewrite Hp. by rewrite omap_lookup_seq.
  - unfold first_error_in_order. rewrite <- omap_nil_Forall. split.
    + intros Hh. apply head_None in Hh. rewrite Hh in He.
      symmetry in He. by apply Permutation_nil_r in He.
    + intros Hn. rewrite Hn in He. apply Permutation_nil_r in He.
      by rewrite He.
  - intros e Hh. unfold first_error_in_order in Hh.
    assert (Hin : e ∈ omap (processor bp) batches).
    { rewrite <- He. by apply head_Some_elem_of. }
    apply list_elem_of_omap in Hin as (b & Hin & Hb'). eauto.
Qed.

(** Two failing batches of one item each, the second goroutine first. *)
Lemma batch_first_error_witness :
  (BatchProcessor_Process [1; 0]%nat 2 (mkBatchProcessor 1 2 fail_with_head)
     ["a"; "b"]%string).2 ≡ₚ [["a"]; ["b"]]%string.
Proof.
  destruct (batch_first_error (mkBatchProcessor 1 2 fail_with_head)
              ["a"; "b"]%string [1; 0]%nat 2) as (batches & Hb & _ & Hs);
    [simpl; lia | simpl; lia | simpl; lia | discriminate |].
  injection Hb as <-. destruct Hs as [Hcalls _]; [|exact Hcalls].
  simpl. apply Permutation_swap.
Defined.

(** C7 as stated fails: both batches fail, the goroutine of batch 1 records
    its error first, and [Process] returns that error, not the error of
    batch 0. *)
Lemma batch_first_error_counterexample :
  let bp := mkBatchProcessor 1 2 fail_with_head in
  createBatches 2 bp ["a"; "b"]%string = Ret [["a"]; ["b"]]%string
  /\ [1; 0]%nat ≡ₚ seq 0 2
  /\ (BatchProcessor_Process [1; 0]%nat 2 bp ["a"; "b"]%string).1
     = Ret (Some (Err "b"))
  /\ first_error_by_index (processor bp) [["a"]; ["b"]]%string = Some (Err "a").
Proof.
  simpl. repeat split. apply Permutation_swap.
Qed.

(** ** Pipeline *)

Section pipeline.
Context {T : Type}.
Implicit Types (p : Pipeline T) (items : list T) (r : PipelineRun).

Lemma run_stages_length (sts : list (Stage T)) :
  forall input, length (run_stages sts input).2 = length sts.
Proof.
  induction sts as [|st rest IH]; intros input; [reflexivity|]. simpl.
  destruct (st input) as [out e]. specialize (IH out).
  destruct (run_stages rest out) as [final rets]. simpl in *. by rewrite IH.
Qed.

Lemma omap_join_lookup_seq {A : Type} (l : list (option A)) :
  omap (fun i => mjoin (l !! i)) (seq 0 (length l)) = omap id l.
Proof.
  induction l as [|x l IH]; [reflexivity|]. simpl.
  rewrite <- fmap_S_seq, omap_after_fmap.
  destruct x; simpl; f_equal; exact IH.
Qed.

(** When every stage goroutine has finished once, [errChan] holds the
    errors the stages returned. *)
Lemma errChan_of_perm (rets : list (option error)) (order : list nat) :
  order ≡ₚ seq 0 (length rets) -> errChan_of rets order ≡ₚ omap id rets.
Proof.
  intros Hp. unfold errChan_of. rewrite Hp. by rewrite omap_join_lookup_seq.
Qed.

Lemma Process_no_stage r p items bufferSize :
  stages p = [] -> Pipeline_Process r p items bufferSize = Ret (items, None).
Proof. intros Hs. unfold Pipeline_Process. by rewrite Hs. Qed.

End pipeline.


(** ** WorkerPool: channels and SubmitJob *)

Lemma NewWorkerPool_new_pool (workers queueSize : Z) :
  0 <= queueSize -> NewWorkerPool workers queueSize = Ret (new_pool workers queueSize).
Proof.
  intros Hq. unfold NewWorkerPool, make_chan.
  destruct (Z.ltb_spec queueSize 0); [lia | reflexivity].
Qed.

Lemma try_send_room {A : Type} (c : chan A) (v : A) :
  closed c = false -> recvq c = 0%nat -> len (buf c) < cap c ->
  try_send c v = Sent (mkChan (cap c) (buf c ++ [v]) 0%nat (sendq c) (handed c) false).
Proof.
  intros Hc Hr Hl. unfold try_send. rewrite Hc, Hr. simpl.
  destruct (Z.ltb_spec (len (buf c)) (cap c)); [reflexivity | lia].
Qed.

Lemma try_send_full {A : Type} (c : chan A) (v : A) :
  closed c = false -> chan_full c -> try_send c v = SendWouldBlock.
Proof.
  intros Hc [Hl Hr]. unfold try_send. rewrite Hc, Hr. simpl.
  destruct (Z.ltb_spec (len (buf c)) (cap c)); [lia | reflexivity].
Qed.

Lemma try_send_handoff {A : Type} (c : chan A) (v : A) :
  closed c = false -> (0 < recvq c)%nat ->
  try_send c v
  = Sent (mkChan (cap c) (buf c) (pred (recvq c)) (sendq c) (handed c ++ [v]) false).
Proof.
  intros Hc Hr. unfold try_send. rewrite Hc.
  destruct (Nat.ltb_spec 0 (recvq c)); [reflexivity | lia].
Qed.

(** A pool that is not stopped queues the job when the queue has room. *)
Lemma SubmitJob_room pick p job :
  ctx_done p = false -> closed (jobQueue p) = false ->
  recvq (jobQueue p) = 0%nat -> len (buf (jobQueue p)) < cap (jobQueue p) ->
  exists q, SubmitJob pick p job = Ret (with_jobQueue q p, None)
            /\ buf q = buf (jobQueue p) ++ [job].
Proof.
  intros Hd Hc Hr Hl. unfold SubmitJob.
  rewrite (try_send_room _ _ Hc Hr Hl), Hd. eexists. split; reflexivity.
Qed.

(** A pool that is not stopped refuses the job at once when the queue
    cannot take it. *)
Lemma SubmitJob_full pick p job :
  ctx_done p = false -> closed (jobQueue p) = false -> chan_full (jobQueue p) ->
  SubmitJob pick p job = Ret (p, Some ErrQueueFull).
Proof.
  intros Hd Hc Hf. unfold SubmitJob. by rewrite (try_send_full _ _ Hc Hf), Hd.
Qed.

(** C2: the code after [Stop].  A pool of two workers and a queue of four
    is started and stopped.  Once [Stop] has closed [quit] and cancelled
    the context, a [SubmitJob] whose select takes the send case queues the
    job and returns nil; once [Stop] has returned, the job queue is closed
    and a [SubmitJob] whose select takes the send case panics.  Only when
    the select takes the [ctx.Done()] case does the call return the
    context's error. *)
Theorem SubmitJob_after_Stop :
  let job := new_job "j1" "t" 0 3 in
  exists w1 w2,
    exec [EStop] (Start (new_pool 2 4)) = Some w1
    /\ exec [EWorkerQuit; EWorkerQuit; EStopWaitDone] w1 = Some w2
    /\ crashed w2 = false
    /\ (exists p, SubmitJob true (wp w1) job = Ret (p, None)
                  /\ buf (jobQueue p) = [job])
    /\ SubmitJob false (wp w1) job = Ret (wp w1, Some Canceled)
    /\ SubmitJob true (wp w2) job = Panic
    /\ SubmitJob false (wp w2) job = Ret (wp w2, Some Canceled).
Proof.
  intros job. eexists _, _. split; [reflexivity|]. split; [reflexivity|].
  split; [reflexivity|]. split; [eexists; split; reflexivity|].
  repeat split.
Qed.

(** ** WorkerPool: processJob *)

Lemma backoff_square (r : Z) :
  0 <= r <= 96038 -> backoff r = r * r * Second.
Proof.
  intros Hr. unfold backoff, wrap64, Second.
  assert (Hsq : 0 <= r * r <= 96038 * 96038) by nia.
  rewrite (Z.mod_small (r * r + 2 ^ 63)) by lia.
  replace (r * r + 2 ^ 63 - 2 ^ 63) with (r * r) by lia.
  rewrite Z.mod_small by lia. lia.
Qed.

Lemma delete_last_app {A : Type} (l : list A) (x : A) :
  delete (length l) (l ++ [x]) = l.
Proof.
  induction l as [|y l IH]; [reflexivity|]. simpl. f_equal. exact IH.
Qed.

Lemma lookup_last_app {A : Type} (l : list A) (x : A) :
  (l ++ [x]) !! length l = Some x.
Proof. rewrite lookup_app_r by lia. by rewrite Nat.sub_diag. Qed.




(** ** WorkerPool: what holds in every reachable world *)

Lemma try_send_Sent {A : Type} (c c' : chan A) (v : A) :
  try_send c v = Sent c' ->
  closed c = false /\ closed c' = false /\ sendq c' = sendq c /\ cap c' = cap c
  /\ ((recvq c = S (recvq c') /\ handed c' = handed c ++ [v] /\ buf c' = buf c)
      \/ (recvq c = 0%nat /\ recvq c' = 0%nat /\ buf c' = buf c ++ [v]
          /\ handed c' = handed c /\ len (buf c) < cap c)).
Proof.
  unfold try_send. destruct (closed c); [discriminate|].
  destruct (Nat.ltb_spec 0 (recvq c)) as [Hr|Hr].
  - intros [= <-]. simpl. repeat split. left. repeat split. lia.
  - destruct (Z.ltb_spec (len (buf c)) (cap c)); [|discriminate].
    intros [= <-]. simpl. repeat split. right. repeat split; lia.
Qed.

Lemma try_send_SendPanic {A : Type} (c : chan A) (v : A) :
  try_send c v = SendPanic -> closed c = true.
Proof.
  unfold try_send. destruct (closed c); [reflexivity|].
  destruct (0 <? recvq c)%nat; [discriminate|].
  destruct (len (buf c) <? cap c); discriminate.
Qed.

Lemma try_send_WouldBlock {A : Type} (c : chan A) (v : A) :
  try_send c v = SendWouldBlock ->
  closed c = false /\ recvq c = 0%nat /\ cap c <= len (buf c).
Proof.
  unfold try_send. destruct (closed c); [discriminate|].
  destruct (Nat.ltb_spec 0 (recvq c)); [discriminate|].
  destruct (Z.ltb_spec (len (buf c)) (cap c)); [discriminate|].
  intros _. repeat split; lia.
Qed.

Lemma try_recv_Received {A : Type} (c c' : chan A) (v : A) (woken : option A) :
  try_recv c = Received v c' woken ->
  closed c' = closed c /\ recvq c' = recvq c /\ handed c' = handed c
  /\ cap c' = cap c
  /\ buf c ++ sendq c = v :: (buf c' ++ sendq c')
  /\ sendq c = option_list woken ++ sendq c'
  /\ (buf c = [] -> buf c' = []).
Proof.
  unfold try_recv. destruct (buf c) as [|x rest], (sendq c) as [|s ss]; simpl.
  - destruct (closed c); discriminate.
  - intros [= <- <- <-]. simpl. repeat split; done.
  - intros [= <- <- <-]. simpl. rewrite !app_nil_r. repeat split; done.
  - intros [= <- <- <-]. simpl. rewrite <- app_assoc. repeat split; done.
Qed.

Lemma try_recv_WouldBlock {A : Type} (c : chan A) :
  try_recv c = RecvWouldBlock -> buf c = [] /\ sendq c = [] /\ closed c = false.
Proof.
  unfold try_recv. destruct (buf c), (sendq c); try discriminate.
  destruct (closed c); [discriminate | auto].
Qed.

Lemma take_handed_Some {A : Type} (c c' : chan A) (v : A) :
  take_handed c = Some (v, c') ->
  handed c = v :: handed c' /\ buf c' = buf c /\ sendq c' = sendq c
  /\ recvq c' = recvq c /\ closed c' = closed c /\ cap c' = cap c.
Proof.
  unfold take_handed. destruct (handed c); [discriminate|].
  intros [= <- <-]. simpl. repeat split.
Qed.

Lemma chan_close_Ret {A : Type} (c c' : chan A) :
  chan_close c = Ret c' ->
  closed c = false /\ closed c' = true /\ sendq c = [] /\ sendq c' = []
  /\ buf c' = buf c /\ handed c' = handed c /\ recvq c' = 0%nat.
Proof.
  unfold chan_close. destruct (closed c); [discriminate|].
  destruct (sendq c); [|discriminate]. intros [= <-]. simpl. repeat split.
Qed.

(** [SubmitJob] changes nothing but the job queue. *)
Lemma SubmitJob_Ret pick p job p' err :
  SubmitJob pick p job = Ret (p', err) ->
  (err = None /\ exists q, try_send (jobQueue p) job = Sent q /\ p' = with_jobQueue q p)
  \/ (err <> None /\ p' = p).
Proof.
  unfold SubmitJob.
  destruct (try_send (jobQueue p) job) as [|q|] eqn:Hs, (ctx_done p), pick;
    intros [= <- <-] || discriminate; eauto.
Qed.

Lemma alive_workers_with_jobQueue q w :
  alive_workers (with_wp (with_jobQueue q (wp w)) w)
  = (at_select w + recvq q + length (handed q) + length (running w)
     + length (sendq (resultQueue (wp w))))%nat.
Proof. reflexivity. Qed.

Lemma do_submit_inv p pick job w :
  pool_inv p w -> pool_inv p (do_submit pick job w).
Proof.
  intros [Hh Hc Hr]. unfold do_submit.
  destruct (SubmitJob pick (wp w) job) as [[p' err]| | |] eqn:Hs;
    try (constructor; assumption).
  apply SubmitJob_Ret in Hs as [(-> & q & Hq & ->)|(Hne & ->)].
  - apply try_send_Sent in Hq as (_ & _ & Hsq & _ & Hcase).
    constructor; simpl; try assumption.
    intros Hcl. specialize (Hc Hcl). unfold alive_workers in *. simpl.
    destruct Hcase as [(H1 & H2 & _)|(H1 & H2 & _ & H3 & _)];
      rewrite ?H2, ?H3, ?length_app; simpl; lia.
  - destruct err; [|done]. constructor; assumption.
Qed.

Lemma send_or_drop_inv p r w w' :
  handlers (wp w) = handlers p ->
  ((0 < recvq (resultQueue (wp w)))%nat -> buf (resultQueue (wp w)) = []) ->
  send_or_drop r w = Ret w' -> pool_inv p w'.
Proof.
  intros Hh Hr. unfold send_or_drop.
  destruct (try_send (resultQueue (wp w)) r) as [|q|] eqn:Hs; [discriminate| |].
  - intros [= <-]. apply try_send_Sent in Hs as (_ & Hcl & _ & _ & Hcase).
    constructor; simpl; [assumption | congruence |].
    destruct Hcase as [(H1 & _ & H3)|(_ & H2 & _)]; [|lia].
    intros _. rewrite H3. apply Hr. lia.
  - intros [= <-]. apply try_send_WouldBlock in Hs as (Hcl & _).
    constructor; simpl; [assumption | congruence | assumption].
Qed.

(** [processJob] is run by a worker, and a worker runs only while the
    result queue is open. *)
Lemma processJob_inv p now start job w w' :
  handlers (wp w) = handlers p ->
  closed (resultQueue (wp w)) = false ->
  ((0 < recvq (resultQueue (wp w)))%nat -> buf (resultQueue (wp w)) = []) ->
  processJob now w start job = Ret w' -> pool_inv p w'.
Proof.
  intros Hh Hopen Hr. unfold processJob.
  destruct (handlers (wp w) !! Type_ job) as [h|].
  - destruct (Handle h job); [destruct (Retries job <? MaxRetries job)|].
    + intros [= <-]. constructor; simpl; [assumption | congruence | assumption].
    + by apply send_or_drop_inv.
    + by apply send_or_drop_inv.
  - unfold send_blocking.
    destruct (try_send (resultQueue (wp w)) _) as [|q|] eqn:Ht; [discriminate| |].
    + intros [= <-]. apply try_send_Sent in Ht as (_ & Hcl & _ & _ & Hcase).
      constructor; simpl; [assumption | congruence |].
      destruct Hcase as [(H1 & _ & H3)|(_ & H2 & _)]; [|lia].
      intros _. rewrite H3. apply Hr. lia.
    + intros [= <-]. constructor; simpl; [assumption | congruence | assumption].
Qed.

Lemma alive_running w k x :
  running w !! k = Some x -> (0 < alive_workers w)%nat.
Proof.
  intros Hk. apply lookup_lt_Some in Hk. unfold alive_workers. lia.
Qed.

Lemma crash_inv p w : pool_inv p w -> pool_inv p (crash w).
Proof. intros [Hh Hc Hr]. constructor; assumption. Qed.

Lemma step_inv p e w w' :
  pool_inv p w -> step e w = Some w' -> pool_inv p w'.
Proof.
  intros Hinv. pose proof Hinv as [Hh Hc Hr]. unfold step.
  destruct (crashed w); [discriminate|].
  destruct e as [pick job| |now|now| |k now|k pick| | | | |].
  - intros [= <-]. by apply do_submit_inv.
  - destruct (at_select w) as [|n] eqn:Hn; [discriminate|].
    destruct (try_recv (jobQueue (wp w))); try discriminate.
    destruct (quit (wp w)); [discriminate|]. intros [= <-].
    constructor; simpl; try assumption.
    intros Hcl. specialize (Hc Hcl). unfold alive_workers in *. simpl. lia.
  - destruct (at_select w) as [|n] eqn:Hn; [discriminate|].
    destruct (try_recv (jobQueue (wp w))) as [job q woken| |] eqn:Hrecv;
      [| |discriminate]; intros [= <-].
    + constructor; simpl; try assumption.
      intros Hcl. specialize (Hc Hcl). unfold alive_workers in *. lia.
    + constructor; simpl; try assumption.
      intros Hcl. specialize (Hc Hcl). unfold alive_workers in *. lia.
  - destruct (take_handed (jobQueue (wp w))) as [[job q]|] eqn:Ht; [|discriminate].
    intros [= <-]. apply take_handed_Some in Ht as (Hhd & _).
    constructor; simpl; try assumption.
    intros Hcl. specialize (Hc Hcl). unfold alive_workers in *.
    rewrite Hhd in Hc. simpl in Hc. lia.
  - destruct (at_select w) as [|n] eqn:Hn; [discriminate|].
    destruct (quit (wp w)); [|discriminate]. intros [= <-].
    constructor; simpl; try assumption.
    intros Hcl. specialize (Hc Hcl). unfold alive_workers in *. lia.
  - destruct (running w !! k) as [[job start]|] eqn:Hk; [|discriminate].
    assert (Hopen : closed (resultQueue (wp w)) = false).
    { destruct (closed (resultQueue (wp w))); [|reflexivity].
      pose proof (alive_running _ _ _ Hk). specialize (Hc eq_refl). lia. }
    destruct (processJob now _ start job) as [w1| | |] eqn:Hp;
      intros [= <-]; try by apply crash_inv.
    by eapply processJob_inv in Hp.
  - destruct (timers w !! k) as [[d job]|]; [|discriminate]. intros [= <-].
    apply do_submit_inv. constructor; assumption.
  - destruct (rp w); try discriminate.
    destruct (try_recv (resultQueue (wp w))) as [r q woken| |] eqn:Hrecv;
      [| |discriminate]; intros [= <-].
    + apply try_recv_Received in Hrecv as (Hcl & Hrq & _ & _ & _ & Hsq & Hbuf).
      destruct woken as [s|]; constructor; simpl; try assumption.
      * intros Hq. rewrite Hcl in Hq. specialize (Hc Hq).
        unfold alive_workers in Hc. rewrite Hsq in Hc. simpl in Hc. lia.
      * intros Hq. rewrite Hrq in Hq. auto.
      * intros Hq. rewrite Hcl in Hq. specialize (Hc Hq).
        unfold alive_workers in *. simpl. rewrite Hsq in Hc. simpl in Hc. lia.
      * intros Hq. rewrite Hrq in Hq. auto.
    + constructor; assumption.
  - destruct (rp w); try discriminate.
    destruct (try_recv (resultQueue (wp w))) eqn:Hrecv; try discriminate.
    intros [= <-]. apply try_recv_WouldBlock in Hrecv as (Hb & _ & Hcl).
    constructor; simpl; [assumption | congruence | auto].
  - destruct (rp w); try discriminate.
    destruct (take_handed (resultQueue (wp w))) as [[r q]|] eqn:Ht; [|discriminate].
    intros [= <-]. apply take_handed_Some in Ht as (_ & Hb & Hsq & Hrq & Hcl & _).
    constructor; simpl; try assumption.
    + intros Hq. rewrite Hcl in Hq. specialize (Hc Hq).
      unfold alive_workers in *. simpl. rewrite Hsq. lia.
    + rewrite Hrq, Hb. assumption.
  - intros [= <-]. unfold Stop_begin.
    destruct (quit (wp w)); [by apply crash_inv|].
    constructor; simpl; try assumption.
    intros Hcl. specialize (Hc Hcl). unfold alive_workers in *. simpl. lia.
  - destruct (stop_waiting w); [|discriminate]. simpl.
    case_bool_decide as Halive; [|discriminate]. intros [= <-].
    unfold Stop_end.
    destruct (chan_close (jobQueue (wp w))) as [jq| | |] eqn:Hjq;
      try by apply crash_inv.
    destruct (chan_close (resultQueue (wp w))) as [rq| | |] eqn:Hrq;
      try by apply crash_inv.
    apply chan_close_Ret in Hjq as (_ & _ & _ & _ & _ & Hjh & Hjr).
    apply chan_close_Ret in Hrq as (_ & _ & _ & Hrs & _ & _ & Hrr).
    constructor; simpl; try assumption.
    + intros _. unfold alive_workers in *. simpl. rewrite Hjh, Hjr, Hrs. simpl. lia.
    + rewrite Hrr. lia.
Qed.

Lemma exec_inv p evs :
  forall w w', pool_inv p w -> exec evs w = Some w' -> pool_inv p w'.
Proof.
  induction evs as [|e evs IH]; intros w w' Hinv; simpl.
  - by intros [= <-].
  - destruct (step e w) as [w1|] eqn:Hs; [|discriminate].
    apply IH. by eapply step_inv.
Qed.

Lemma configured_open p :
  configured p ->
  closed (resultQueue p) = false /\ recvq (resultQueue p) = 0%nat.
Proof.
  induction 1 as [workers queueSize p Hnew|h p _ IH]; [|exact IH].
  unfold NewWorkerPool, make_chan in Hnew.
  destruct (queueSize <? 0); [discriminate|]. by injection Hnew as <-.
Qed.

Lemma reachable_inv p w : configured p -> reachable p w -> pool_inv p w.
Proof.
  intros Hcfg [evs Hexec]. apply (exec_inv p evs (Start p) w); [|exact Hexec].
  destruct (configured_open p Hcfg) as [Hcl Hrq].
  constructor; simpl; [reflexivity | congruence | lia].
Qed.

(** A worker is inside [processJob] only while the result queue is open. *)
Lemma running_open p w k x :
  pool_inv p w -> running w !! k = Some x -> closed (resultQueue (wp w)) = false.
Proof.
  intros [_ Hc _] Hk. destruct (closed (resultQueue (wp w))); [|reflexivity].
  pose proof (alive_running _ _ _ Hk). specialize (Hc eq_refl). lia.
Qed.

(** The buffer of the result queue never holds more than its capacity. *)
Lemma try_send_bounded {A : Type} (c c' : chan A) (v : A) :
  try_send c v = Sent c' -> len (buf c) <= cap c -> len (buf c') <= cap c'.
Proof.
  intros Hs Hb. apply try_send_Sent in Hs as (_ & _ & _ & Hcap & Hcase).
  destruct Hcase as [(_ & _ & ->)|(_ & _ & -> & _ & Hlt)]; [lia|].
  unfold len in *. rewrite length_app. simpl. lia.
Qed.

Lemma do_submit_resultQueue pick job w :
  resultQueue (wp (do_submit pick job w)) = resultQueue (wp w).
Proof.
  unfold do_submit.
  destruct (SubmitJob pick (wp w) job) as [[p' err]| | |] eqn:Hs; try reflexivity.
  apply SubmitJob_Ret in Hs as [(-> & q & _ & ->)|(_ & ->)]; [reflexivity|].
  by destruct err.
Qed.

Lemma processJob_bounded now start job w w' :
  processJob now w start job = Ret w' ->
  len (buf (resultQueue (wp w))) <= cap (resultQueue (wp w)) ->
  len (buf (resultQueue (wp w'))) <= cap (resultQueue (wp w')).
Proof.
  unfold processJob, send_or_drop, send_blocking.
  destruct (handlers (wp w) !! Type_ job) as [h|];
    [destruct (Handle h job); [destruct (Retries job <? MaxRetries job)|]|];
    simpl; try (intros [= <-]; by simpl);
    destruct (try_send (resultQueue (wp w)) _) as [|q|] eqn:Hs;
    intros [= <-]; simpl; try done; by eapply try_send_bounded.
Qed.

Lemma step_bounded e w w' :
  step e w = Some w' ->
  len (buf (resultQueue (wp w))) <= cap (resultQueue (wp w)) ->
  len (buf (resultQueue (wp w'))) <= cap (resultQueue (wp w')).
Proof.
  unfold step. destruct (crashed w); [discriminate|].
  destruct e as [pick job| |now|now| |k now|k pick| | | | |].
  - intros [= <-]. by rewrite do_submit_resultQueue.
  - destruct (at_select w), (try_recv (jobQueue (wp w))), (quit (wp w));
      intros [= <-] || discriminate; done.
  - destruct (at_select w), (try_recv (jobQueue (wp w)));
      intros [= <-] || discriminate; done.
  - destruct (take_handed (jobQueue (wp w))) as [[job q]|];
      intros [= <-] || discriminate; done.
  - destruct (at_select w), (quit (wp w)); intros [= <-] || discriminate; done.
  - destruct (running w !! k) as [[job start]|]; [|discriminate].
    destruct (processJob now _ start job) as [w1| | |] eqn:Hp;
      intros [= <-]; try done.
    intros Hb. by eapply processJob_bounded in Hp.
  - destruct (timers w !! k) as [[d job]|]; [|discriminate]. intros [= <-].
    by rewrite do_submit_resultQueue.
  - destruct (rp w); try discriminate.
    destruct (try_recv (resultQueue (wp w))) as [r q woken| |] eqn:Hrecv;
      [| |discriminate]; intros [= <-]; [|done].
    apply try_recv_Received in Hrecv as (_ & _ & _ & Hcap & Happ & Hsq & _).
    intros Hb.
    assert (Hlen : len (buf q) <= cap q).
    { rewrite Hcap. rewrite Hsq in Happ. apply (f_equal length) in Happ.
      unfold len in *. destruct woken; simpl in Happ;
        rewrite ?length_app in Happ; simpl in Happ;
        rewrite ?length_app in Happ; lia. }
    by destruct woken.
  - destruct (rp w); try discriminate.
    destruct (try_recv (resultQueue (wp w))); intros [= <-] || discriminate; done.
  - destruct (rp w); try discriminate.
    destruct (take_handed (resultQueue (wp w))) as [[r q]|] eqn:Ht; [|discriminate].
    intros [= <-]. apply take_handed_Some in Ht as (_ & Hb & _ & _ & _ & Hcap).
    simpl. by rewrite Hb, Hcap.
  - intros [= <-]. unfold Stop_begin. by destruct (quit (wp w)).
  - destruct (stop_waiting w && bool_decide (alive_workers w = 0%nat));
      [|discriminate]. intros [= <-]. unfold Stop_end.
    destruct (chan_close (jobQueue (wp w))) as [jq| | |]; try done.
    unfold chan_close.
    destruct (closed (resultQueue (wp w))); [done|].
    by destruct (sendq (resultQueue (wp w))).
Qed.

Lemma reachable_bounded p w :
  configured p -> reachable p w ->
  len (buf (resultQueue (wp w))) <= cap (resultQueue (wp w)).
Proof.
  intros Hcfg [evs Hexec].
  assert (H0 : len (buf (resultQueue (wp (Start p)))) <= cap (resultQueue (wp (Start p)))).
  { simpl. clear Hexec. induction Hcfg as [workers queueSize p Hnew|h p _ IH]; [|exact IH].
    unfold NewWorkerPool, make_chan in Hnew.
    destruct (Z.ltb_spec queueSize 0); [discriminate|]. injection Hnew as <-.
    simpl. unfold len. simpl. lia. }
  revert Hexec H0. generalize (Start p). induction evs as [|e evs IH]; intros w0; simpl.
  - by intros [= <-].
  - destruct (step e w0) as [w1|] eqn:Hs; [|discriminate].
    intros Hexec Hb. apply (IH w1 Hexec). by eapply step_bounded.
Qed.

(** For a result queue of capacity one or more, in a reachable world: the
    queue cannot take a value at once exactly when its buffer is at
    capacity. *)
Lemma buffered_full p w :
  configured p -> reachable p w -> 0 < cap (resultQueue (wp w)) ->
  chan_full (resultQueue (wp w))
  <-> len (buf (resultQueue (wp w))) = cap (resultQueue (wp w)).
Proof.
  intros Hcfg Hr Hcap. split; [by intros [? _]|]. intros Hlen. split; [exact Hlen|].
  destruct (reachable_inv p w Hcfg Hr) as [_ _ Hrq].
  destruct (recvq (resultQueue (wp w))) as [|n]; [reflexivity|].
  rewrite Hrq in Hlen by lia. unfold len in Hlen. simpl in Hlen. lia.
Qed.

Lemma not_full_Sent {A : Type} (c : chan A) (v : A) :
  closed c = false -> len (buf c) <= cap c -> ~ chan_full c ->
  exists c', try_send c v = Sent c'.
Proof.
  intros Hc Hb Hnf. unfold try_send. rewrite Hc.
  destruct (Nat.ltb_spec 0 (recvq c)); [eauto|].
  destruct (Z.ltb_spec (len (buf c)) (cap c)); [eauto|].
  exfalso. apply Hnf. split; lia.
Qed.

(** A result parked in the send of line 151 stays parked until a receive
    lets the send complete: no step drops it. *)
Lemma parked_kept e w w' r :
  step e w = Some w' ->
  r ∈ sendq (resultQueue (wp w)) ->
  r ∈ sendq (resultQueue (wp w')) \/ r ∈ published w'.
Proof.
  unfold step. destruct (crashed w); [discriminate|].
  destruct e as [pick job| |now|now| |k now|k pick| | | | |].
  - intros [= <-]. rewrite do_submit_resultQueue. auto.
  - destruct (at_select w), (try_recv (jobQueue (wp w))), (quit (wp w));
      intros [= <-] || discriminate; auto.
  - destruct (at_select w), (try_recv (jobQueue (wp w)));
      intros [= <-] || discriminate; auto.
  - destruct (take_handed (jobQueue (wp w))) as [[job q]|];
      intros [= <-] || discriminate; auto.
  - destruct (at_select w), (quit (wp w)); intros [= <-] || discriminate; auto.
  - destruct (running w !! k) as [[job start]|]; [|discriminate].
    destruct (processJob now _ start job) as [w1| | |] eqn:Hp;
      intros [= <-]; auto.
    intros Hin. left. revert Hp. unfold processJob, send_or_drop, send_blocking.
    destruct (handlers _ !! Type_ job) as [h|];
      [destruct (Handle h job); [destruct (Retries job <? MaxRetries job)|]|];
      simpl; try (intros [= <-]; by simpl);
      destruct (try_send (resultQueue (wp w)) _) as [|q|] eqn:Hs;
      intros [= <-]; simpl; try done;
      try (apply try_send_Sent in Hs as (_ & _ & -> & _); done).
    apply elem_of_app. by left.
  - destruct (timers w !! k) as [[d job]|]; [|discriminate]. intros [= <-].
    rewrite do_submit_resultQueue. auto.
  - destruct (rp w); try discriminate.
    destruct (try_recv (resultQueue (wp w))) as [r' q woken| |] eqn:Hrecv;
      [| |discriminate]; intros [= <-]; [|auto].
    apply try_recv_Received in Hrecv as (_ & _ & _ & _ & _ & Hsq & _).
    rewrite Hsq. destruct woken as [s|]; simpl; [|auto].
    intros [->|Hin]%elem_of_cons; [right|by left].
    apply elem_of_app. right. apply list_elem_of_here.
  - destruct (rp w); try discriminate.
    destruct (try_recv (resultQueue (wp w))); intros [= <-] || discriminate; auto.
  - destruct (rp w); try discriminate.
    destruct (take_handed (resultQueue (wp w))) as [[r' q]|] eqn:Ht; [|discriminate].
    intros [= <-]. apply take_handed_Some in Ht as (_ & _ & Hsq & _).
    simpl. rewrite Hsq. auto.
  - intros [= <-]. unfold Stop_begin. destruct (quit (wp w)); auto.
  - destruct (stop_waiting w && bool_decide (alive_workers w = 0%nat));
      [|discriminate]. intros [= <-]. unfold Stop_end.
    destruct (chan_close (jobQueue (wp w))) as [jq| | |]; auto.
    destruct (chan_close (resultQueue (wp w))) as [rq| | |] eqn:Hrq; auto.
    apply chan_close_Ret in Hrq as (_ & _ & Hsq & _). rewrite Hsq.
    intros Hin. by apply not_elem_of_nil in Hin.
Qed.

(** The next receive of the result processor completes the oldest parked
    send. *)
Lemma parked_head_published w r rest :
  crashed w = false -> rp w = RPAtRecv ->
  sendq (resultQueue (wp w)) = r :: rest ->
  exists w', step EResultRecv w = Some w'
             /\ published w' = published w ++ [r]
             /\ sendq (resultQueue (wp w')) = rest
             /\ dropped w' = dropped w.
Proof.
  intros Hc Hrp Hsq. unfold step, try_recv. rewrite Hc, Hrp, Hsq.
  destruct (buf (resultQueue (wp w))); eexists; split; reflexivity || (repeat split).
Qed.

(** ** WorkerPool: the result of a job *)



(** C10, as the code has it.  A worker of a started pool finishes
    [processJob] on a job.  Without a handler, the result is sent with a
    blocking send: when the result queue cannot take it at once (buffer at
    capacity and no receiver parked) the worker parks in the send and
    does not go back to its select, nothing is dropped, and no later step
    drops the parked result; otherwise the result is published.  With a
    handler that succeeds or whose failure is not retried, the result is
    sent without blocking: when the result queue cannot take it at once
    it is dropped, the queue is left as it was and the worker goes back to
    its select; otherwise it is published.  For a result queue of
    capacity one or more, the queue cannot take a result at once exactly
    when its buffer is at capacity. *)
Theorem result_delivery_asymmetry (p : WorkerPool) (w : World) (k : nat)
    (now start : Z) (job : Job) :
  configured p -> reachable p w -> crashed w = false ->
  running w !! k = Some (job, start) ->
  let rq := resultQueue (wp w) in
  (handlers p !! Type_ job = None ->
   let r := no_handler_result now start job in
   (chan_full rq ->
    exists w', step (EHandlerDone k now) w = Some w'
      /\ crashed w' = false
      /\ sendq (resultQueue (wp w')) = sendq rq ++ [r]
      /\ published w' = published w /\ dropped w' = dropped w
      /\ at_select w' = at_select w
      /\ forall e w1 w2, step e w1 = Some w2 ->
           r ∈ sendq (resultQueue (wp w1)) ->
           r ∈ sendq (resultQueue (wp w2)) \/ r ∈ published w2)
   /\ (~ chan_full rq ->
       exists w', step (EHandlerDone k now) w = Some w'
         /\ published w' = published w ++ [r] /\ dropped w' = dropped w
         /\ at_select w' = S (at_select w)))
  /\ (forall h, handlers p !! Type_ job = Some h ->
      Handle h job = None \/ ~ Retries job < MaxRetries job ->
      let r := handler_result now start job (Handle h job) in
      (chan_full rq ->
       exists w', step (EHandlerDone k now) w = Some w'
         /\ crashed w' = false
         /\ dropped w' = dropped w ++ [r] /\ published w' = published w
         /\ resultQueue (wp w') = rq
         /\ at_select w' = S (at_select w))
      /\ (~ chan_full rq ->
          exists w', step (EHandlerDone k now) w = Some w'
            /\ published w' = published w ++ [r] /\ dropped w' = dropped w
            /\ at_select w' = S (at_select w)))
  /\ (0 < cap rq -> (chan_full rq <-> len (buf rq) = cap rq)).
Proof.
  intros Hcfg Hr Hc Hk rq.
  pose proof (reachable_inv p w Hcfg Hr) as Hinv.
  pose proof (running_open p w k _ Hinv Hk) as Hopen.
  pose proof (reachable_bounded p w Hcfg Hr) as Hb.
  destruct Hinv as [Hh _ _]. fold rq in Hopen, Hb.
  split; [|split].
  - intros Hnone r. split.
    + intros Hfull. unfold step, processJob, send_blocking.
      rewrite Hc, Hk. simpl. rewrite Hh, Hnone. fold r rq.
      rewrite (try_send_full rq r Hopen Hfull).
      eexists. split; [reflexivity|]. simpl. repeat split; try assumption.
      intros e w1 w2. apply parked_kept.
    + intros Hnf. destruct (not_full_Sent rq r Hopen Hb Hnf) as [q Hq].
      unfold step, processJob, send_blocking.
      rewrite Hc, Hk. simpl. rewrite Hh, Hnone. fold r rq. rewrite Hq.
      eexists. split; [reflexivity|]. simpl. repeat split.
  - intros h Hsome Hfinal r.
    assert (Hpj : forall w0, handlers (wp w0) = handlers p ->
              processJob now w0 start job = send_or_drop r (log_call job w0)).
    { intros w0 Hh0. unfold processJob. rewrite Hh0, Hsome. fold r.
      destruct (Handle h job) eqn:He; [|reflexivity].
      destruct (Z.ltb_spec (Retries job) (MaxRetries job)); [|reflexivity].
      destruct Hfinal as [?|Hn]; [discriminate | by destruct Hn]. }
    split.
    + intros Hfull. unfold step. rewrite Hc, Hk, Hpj by exact Hh.
      unfold send_or_drop. simpl. fold rq.
      rewrite (try_send_full rq r Hopen Hfull).
      eexists. split; [reflexivity|]. simpl. repeat split; assumption.
    + intros Hnf. destruct (not_full_Sent rq r Hopen Hb Hnf) as [q Hq].
      unfold step. rewrite Hc, Hk, Hpj by exact Hh.
      unfold send_or_drop. simpl. fold rq. rewrite Hq.
      eexists. split; [reflexivity|]. simpl. repeat split.
  - intros Hcap. by apply (buffered_full p w).
Qed.

(** A pool with a succeeding handler, one worker and queues of one, whose
    result queue already holds a result: the second result is dropped. *)
Lemma result_delivery_asymmetry_witness :
  let p := RegisterHandler (always_succeeds "t") (new_pool 1 1) in
  let j1 := new_job "j1" "t" 0 3 in
  let j2 := new_job "j2" "t" 0 3 in
  let w := world_after [ESubmit true j1; EWorkerRecv 1; EHandlerDone 0 2;
                        ESubmit true j2; EWorkerRecv 3] (Start p) in
  exists w',
    step (EHandlerDone 0 4) w = Some w'
    /\ published w' = [handler_result 2 1 j1 None]
    /\ dropped w' = [handler_result 4 3 j2 None].
Proof.
  intros p j1 j2 w.
  destruct (result_delivery_asymmetry p w 0 4 3 j2) as (_ & Hh & _).
  - apply configured_register. eapply configured_new.
    by apply (NewWorkerPool_new_pool 1 1).
  - exists [ESubmit true j1; EWorkerRecv 1; EHandlerDone 0 2;
            ESubmit true j2; EWorkerRecv 3]. vm_compute. reflexivity.
  - vm_compute. reflexivity.
  - vm_compute. reflexivity.
  - destruct (Hh (always_succeeds "t")) as [Hfull _].
    + vm_compute. reflexivity.
    + left. reflexivity.
    + destruct Hfull as (w' & Hstep & _ & Hd & Hp & _).
      * split; vm_compute; reflexivity.
      * exists w'. split; [exact Hstep|].
        split; [exact Hp | exact Hd].
Defined.

(** C10 as stated fails for a result queue without buffer: the result
    processor is parked in its receive, the queue is at capacity (zero
    elements of zero), and the result of a job that succeeded is handed to
    the processor, not dropped. *)
Lemma result_delivery_asymmetry_counterexample :
  let p := RegisterHandler (always_succeeds "t") (new_pool 1 0) in
  let j1 := new_job "j1" "t" 0 3 in
  let evs := [EResultPark; EWorkerPark; ESubmit true j1; EWorkerResume 5] in
  let w := world_after evs (Start p) in
  let w' := world_after [EHandlerDone 0 7] w in
  NewWorkerPool 1 0 = Ret (new_pool 1 0)
  /\ exec evs (Start p) = Some w
  /\ running w = [(j1, 5)]
  /\ len (buf (resultQueue (wp w))) = cap (resultQueue (wp w))
  /\ step (EHandlerDone 0 7) w = Some w'
  /\ published w' = [handler_result 7 5 j1 None]
  /\ dropped w' = []
  /\ handed (resultQueue (wp w')) = [handler_result 7 5 j1 None].
Proof.
  intros p j1 evs w w'. repeat split; vm_compute; reflexivity.
Qed.

(** ** WorkerPool: what an event does to the books *)

Lemma do_submit_effect pick j w :
  let w' := do_submit pick j w in
  crashed w = false ->
  (crashed w' = true /\ jobs_in w' = jobs_in w
   /\ calls w' = calls w /\ published w' = published w
   /\ dropped w' = dropped w /\ rejected w' = rejected w)
  \/ (crashed w' = false
      /\ (same_ledger (ledger_of w')
            (mkLedger (j :: jobs_in w) (calls w) (published w) (dropped w)
               (rejected w) (sendq (resultQueue (wp w))))
          \/ same_ledger (ledger_of w')
               (mkLedger (jobs_in w) (calls w) (published w) (dropped w)
                  (rejected w ++ [j]) (sendq (resultQueue (wp w)))))).
Proof.
  intros w' Hc. subst w'. unfold do_submit.
  destruct (SubmitJob pick (wp w) j) as [[p' err]| | |] eqn:Hs;
    try (left; by repeat split).
  right. apply SubmitJob_Ret in Hs as [(-> & q & Hq & ->)|(Hne & ->)].
  - split; [exact Hc|]. left.
    apply try_send_Sent in Hq as (_ & _ & Hsq & _ & Hcase).
    unfold same_ledger, ledger_of, jobs_in; simpl. repeat split. rewrite Hsq.
    destruct Hcase as [(_ & -> & ->)|(_ & _ & -> & -> & _)]; solve_Permutation.
  - destruct err; [|done]. split; [exact Hc|]. right.
    unfold same_ledger, ledger_of, jobs_in; simpl. by repeat split.
Qed.

Lemma running_delete_perm (l : list (Job * Z)) k job start :
  l !! k = Some (job, start) -> l.*1 ≡ₚ job :: (delete k l).*1.
Proof.
  intros Hk. rewrite list_fmap_delete. apply delete_Permutation.
  by rewrite list_lookup_fmap, Hk.
Qed.

Lemma timers_delete_perm (l : list (Z * Job)) k d job :
  l !! k = Some (d, job) -> l.*2 ≡ₚ job :: (delete k l).*2.
Proof.
  intros Hk. rewrite list_fmap_delete. apply delete_Permutation.
  by rewrite list_lookup_fmap, Hk.
Qed.

(** [processJob] on the job of a running worker that has been taken off
    [running]: [J0] lists the other jobs held. *)
Lemma processJob_effect H e now start job w w' J0 :
  handlers (wp w) = H -> crashed w = false ->
  jobs_in w ≡ₚ J0 ->
  processJob now w start job = Ret w' ->
  crashed w' = false
  /\ effect H e (job :: J0) (calls w) (published w) (dropped w) (rejected w)
       (sendq (resultQueue (wp w))) (ledger_of w').
Proof.
  intros HH Hc HJ. unfold processJob. rewrite HH.
  destruct (H !! Type_ job) as [h|] eqn:Hh.
  - assert (Hfinal : Handle h job = None \/ ~ Retries job < MaxRetries job ->
              send_or_drop (handler_result now start job (Handle h job)) (log_call job w)
              = Ret w' ->
              crashed w' = false
              /\ effect H e (job :: J0) (calls w) (published w) (dropped w)
                   (rejected w) (sendq (resultQueue (wp w))) (ledger_of w')).
    { intros Hf. unfold send_or_drop. simpl.
      destruct (try_send (resultQueue (wp w)) _) as [|q|] eqn:Hs; [discriminate| |];
        intros [= <-]; (split; [exact Hc|]).
      - apply try_send_Sent in Hs as (_ & _ & Hsq & _).
        eapply (eff_final_sent H e _ _ _ _ _ _ job J0 h now start);
          [reflexivity | exact Hh | exact Hf |].
        unfold same_ledger, ledger_of, jobs_in in *; simpl. by repeat split.
      - eapply (eff_final_dropped H e _ _ _ _ _ _ job J0 h now start);
          [reflexivity | exact Hh | exact Hf |].
        unfold same_ledger, ledger_of, jobs_in in *; simpl. by repeat split. }
    destruct (Handle h job) as [err|] eqn:He.
    + destruct (Z.ltb_spec (Retries job) (MaxRetries job)) as [Hlt|Hge].
      * intros [= <-]. split; [exact Hc|].
        eapply (eff_retry H e _ _ _ _ _ _ job J0 h);
          [reflexivity | exact Hh | congruence | exact Hlt |].
        unfold same_ledger, ledger_of, jobs_in in *; simpl. repeat split.
        rewrite fmap_app. simpl. rewrite <- HJ. solve_Permutation.
      * apply Hfinal. right. lia.
    + apply Hfinal. by left.
  - unfold send_blocking.
    destruct (try_send (resultQueue (wp w)) _) as [|q|] eqn:Hs; [discriminate| |];
      intros [= <-]; (split; [exact Hc|]).
    + apply try_send_Sent in Hs as (_ & _ & Hsq & _).
      eapply (eff_no_handler_sent H e _ _ _ _ _ _ job J0 now start);
        [reflexivity | exact Hh |].
      unfold same_ledger, ledger_of, jobs_in in *; simpl. by repeat split.
    + eapply (eff_no_handler_parked H e _ _ _ _ _ _ job J0 now start);
        [reflexivity | exact Hh |].
      unfold same_ledger, ledger_of, jobs_in in *; simpl. by repeat split.
Qed.

Lemma same_ledger_perm L' J J' C P D R Q :
  J ≡ₚ J' -> same_ledger L' (mkLedger J C P D R Q) ->
  same_ledger L' (mkLedger J' C P D R Q).
Proof.
  intros HJ (Hl & ?). split; [|assumption]. simpl in *. by rewrite Hl.
Qed.

(** The books before the event may list the jobs in any order. *)
Lemma effect_perm H e J J' C P D R Q L :
  J ≡ₚ J' -> effect H e J C P D R Q L -> effect H e J' C P D R Q L.
Proof.
  intros HJ Heff.
  destruct Heff as [L' Hl|s Q0 L' HQ Hl|pick j L' He Hl|pick j L' He Hl
                   |j J0 L' HJ0 Hl|jb J0 nw st L' HJ0 Hh Hl|jb J0 nw st L' HJ0 Hh Hl
                   |jb J0 h L' HJ0 Hh He Hlt Hl|jb J0 h nw st L' HJ0 Hh Hf Hl
                   |jb J0 h nw st L' HJ0 Hh Hf Hl].
  - apply eff_none. by eapply same_ledger_perm.
  - eapply eff_unparked; [exact HQ|]. by eapply same_ledger_perm.
  - eapply eff_submitted; [exact He|]. eapply same_ledger_perm; [|exact Hl].
    by constructor.
  - eapply eff_refused; [exact He|]. by eapply same_ledger_perm.
  - eapply eff_timer_refused; [by rewrite <- HJ, HJ0 | exact Hl].
  - eapply eff_no_handler_sent; [by rewrite <- HJ, HJ0 | exact Hh | exact Hl].
  - eapply eff_no_handler_parked; [by rewrite <- HJ, HJ0 | exact Hh | exact Hl].
  - eapply eff_retry; [by rewrite <- HJ, HJ0 | exact Hh | exact He | exact Hlt | exact Hl].
  - eapply eff_final_sent; [by rewrite <- HJ, HJ0 | exact Hh | exact Hf | exact Hl].
  - eapply eff_final_dropped; [by rewrite <- HJ, HJ0 | exact Hh | exact Hf | exact Hl].
Qed.

Ltac same_books :=
  apply eff_none; unfold same_ledger, ledger_of, jobs_in; simpl;
  repeat split; try done.

(** An event of a program that has not died either kills the program,
    leaving the logs as they are, or has one of the effects on the
    books. *)
Lemma step_effect H e w w' :
  handlers (wp w) = H -> step e w = Some w' ->
  crashed w = false
  /\ handlers (wp w') = H
  /\ ((crashed w' = true /\ jobs_in w' ⊆ jobs_in w
       /\ calls w' = calls w /\ published w' = published w
       /\ dropped w' = dropped w /\ rejected w' = rejected w)
      \/ (crashed w' = false
          /\ effect H e (jobs_in w) (calls w) (published w) (dropped w)
               (rejected w) (sendq (resultQueue (wp w))) (ledger_of w'))).
Proof.
  intros HH. unfold step. destruct (crashed w) eqn:Hc; [discriminate|].
  intros Hstep. split; [reflexivity|].
  destruct e as [pick job| |now|now| |k now|k pick| | | | |].
  - injection Hstep as <-. split.
    { unfold do_submit.
      destruct (SubmitJob pick (wp w) job) as [[p' err]| | |] eqn:Hs; try done.
      apply SubmitJob_Ret in Hs as [(-> & q & _ & ->)|(_ & ->)]; [done|].
      by destruct err. }
    destruct (do_submit_effect pick job w Hc) as [(? & -> & ?)|[Hok [Hl|Hl]]];
      [by left | right; split; [exact Hok|] ..].
    + by eapply eff_submitted.
    + by eapply eff_refused.
  - destruct (at_select w) as [|n]; [discriminate|].
    destruct (try_recv (jobQueue (wp w))); try discriminate.
    destruct (quit (wp w)); [discriminate|]. injection Hstep as <-.
    split; [exact HH|]. right. split; [exact Hc|]. same_books.
  - destruct (at_select w) as [|n]; [discriminate|].
    destruct (try_recv (jobQueue (wp w))) as [job q woken| |] eqn:Hrecv;
      [| |discriminate]; injection Hstep as <-;
      (split; [exact HH|]); right; (split; [exact Hc|]); [|same_books].
    apply try_recv_Received in Hrecv as (_ & _ & Hhd & _ & Happ & _).
    same_books. rewrite Hhd, fmap_app. simpl.
    rewrite (app_assoc (buf (jobQueue (wp w)))), Happ. solve_Permutation.
  - destruct (take_handed (jobQueue (wp w))) as [[job q]|] eqn:Ht; [|discriminate].
    injection Hstep as <-. apply take_handed_Some in Ht as (Hhd & Hb & Hsq & _).
    split; [exact HH|]. right. split; [exact Hc|]. same_books.
    rewrite Hhd, Hb, Hsq, fmap_app. simpl. solve_Permutation.
  - destruct (at_select w) as [|n]; [discriminate|].
    destruct (quit (wp w)); [|discriminate]. injection Hstep as <-.
    split; [exact HH|]. right. split; [exact Hc|]. same_books.
  - destruct (running w !! k) as [[job start]|] eqn:Hk; [|discriminate].
    destruct (processJob now _ start job) as [w1| | |] eqn:Hp;
      injection Hstep as <-; try (split; [exact HH|]; left; by repeat split).
    pose proof (running_delete_perm _ _ _ _ Hk) as Hperm.
    assert (HJ : jobs_in w ≡ₚ job :: jobs_in (with_running (delete k (running w)) w)).
    { unfold jobs_in. simpl. rewrite Hperm. solve_Permutation. }
    split.
    { revert Hp. unfold processJob, send_or_drop, send_blocking. simpl.
      destruct (handlers (wp w) !! Type_ job) as [h|];
        [destruct (Handle h job); [destruct (Retries job <? MaxRetries job)|]|];
        simpl; try (intros [= <-]; by simpl);
        destruct (try_send (resultQueue (wp w)) _) as [|q|];
        intros [= <-]; by simpl. }
    right.
    destruct (processJob_effect H (EHandlerDone k now) now start job
                (with_running (delete k (running w)) w) w1
                (jobs_in (with_running (delete k (running w)) w)) HH Hc
                (reflexivity _) Hp) as [Hc1 Heff].
    split; [exact Hc1|]. simpl in Heff.
    eapply effect_perm; [symmetry; exact HJ | exact Heff].
  - destruct (timers w !! k) as [[d job]|] eqn:Hk; [|discriminate].
    injection Hstep as <-.
    pose proof (timers_delete_perm _ _ _ _ Hk) as Hperm.
    assert (HJ : jobs_in w ≡ₚ job :: jobs_in (with_timers (delete k (timers w)) w)).
    { unfold jobs_in. simpl. rewrite Hperm. solve_Permutation. }
    split.
    { unfold do_submit. simpl.
      destruct (SubmitJob pick (wp w) job) as [[p' err]| | |] eqn:Hs; try done.
      apply SubmitJob_Ret in Hs as [(-> & q & _ & ->)|(_ & ->)]; [done|].
      by destruct err. }
    destruct (do_submit_effect pick job (with_timers (delete k (timers w)) w) Hc)
      as [(? & -> & ?)|[Hok [Hl|Hl]]]; [left | right; split; [exact Hok|] ..].
    + split; [assumption|]. split; [|assumption].
      intros x Hx. rewrite HJ. by apply elem_of_cons; right.
    + apply eff_none. destruct Hl as (Hl & ?). split; [|assumption].
      simpl in *. by rewrite Hl, HJ.
    + eapply eff_timer_refused; [exact HJ | exact Hl].
  - destruct (rp w); try discriminate.
    destruct (try_recv (resultQueue (wp w))) as [r q woken| |] eqn:Hrecv;
      [| |discriminate]; injection Hstep as <-.
    + apply try_recv_Received in Hrecv as (_ & _ & _ & _ & _ & Hsq & _).
      split; [by destruct woken|]. right.
      destruct woken as [s|]; simpl in *.
      * split; [exact Hc|]. eapply eff_unparked; [exact Hsq|].
        unfold same_ledger, ledger_of, jobs_in; simpl. by repeat split.
      * split; [exact Hc|]. same_books.
    + split; [exact HH|]. right. split; [exact Hc|]. same_books.
  - destruct (rp w); try discriminate.
    destruct (try_recv (resultQueue (wp w))); try discriminate.
    injection Hstep as <-. split; [exact HH|]. right. split; [exact Hc|]. same_books.
  - destruct (rp w); try discriminate.
    destruct (take_handed (resultQueue (wp w))) as [[r q]|] eqn:Ht; [|discriminate].
    injection Hstep as <-. apply take_handed_Some in Ht as (_ & _ & Hsq & _).
    split; [exact HH|]. right. split; [exact Hc|]. same_books.
  - injection Hstep as <-. unfold Stop_begin.
    destruct (quit (wp w)); (split; [exact HH|]); [left; by repeat split|].
    right. split; [exact Hc|]. same_books.
  - destruct (stop_waiting w && bool_decide (alive_workers w = 0%nat));
      [|discriminate]. injection Hstep as <-. unfold Stop_end.
    destruct (chan_close (jobQueue (wp w))) as [jq| | |] eqn:Hjq;
      try (split; [exact HH|]; left; by repeat split).
    destruct (chan_close (resultQueue (wp w))) as [rq| | |] eqn:Hrq;
      try (split; [exact HH|]; left; by repeat split).
    apply chan_close_Ret in Hjq as (_ & _ & Hjs & Hjs' & Hjb & Hjh & _).
    apply chan_close_Ret in Hrq as (_ & _ & Hrs & Hrs' & _).
    split; [exact HH|]. right. split; [exact Hc|].
    same_books; [by rewrite Hjs, Hjs', Hjb, Hjh | congruence].
Qed.

(** ** WorkerPool: the retry count *)

Lemma configured_empty p :
  configured p ->
  jobQueue p = mkChan (cap (jobQueue p)) [] 0%nat [] [] false
  /\ resultQueue p = mkChan (cap (resultQueue p)) [] 0%nat [] [] false.
Proof.
  induction 1 as [workers queueSize p Hnew|h p _ IH]; [|exact IH].
  unfold NewWorkerPool, make_chan in Hnew.
  destruct (queueSize <? 0); [discriminate|]. by injection Hnew as <-.
Qed.

Lemma Start_jobs_in p : configured p -> jobs_in (Start p) = [].
Proof.
  intros Hcfg. destruct (configured_empty p Hcfg) as [Hjq _].
  unfold jobs_in. simpl. by rewrite Hjq.
Qed.

Lemma effect_retries H e J C P D R Q L' :
  effect H e J C P D R Q L' ->
  (forall pick j, e = ESubmit pick j -> Retries j <= MaxRetries j) ->
  Forall (fun j => Retries j <= MaxRetries j) (J ++ C ++ R) ->
  Forall (fun j => Retries j <= MaxRetries j) (l_jobs L' ++ l_calls L' ++ l_rej L').
Proof.
  intros Heff Hsub. rewrite !Forall_app. intros (HJ & HC & HR).
  destruct Heff as [L' Hl|s Q0 L' HQ Hl|pick j L' He Hl|pick j L' He Hl
                   |j J0 L' HJ0 Hl|jb J0 nw st L' HJ0 Hh Hl|jb J0 nw st L' HJ0 Hh Hl
                   |jb J0 h L' HJ0 Hh He Hlt Hl|jb J0 h nw st L' HJ0 Hh Hf Hl
                   |jb J0 h nw st L' HJ0 Hh Hf Hl];
    destruct Hl as (-> & -> & _ & _ & -> & _); simpl;
    try (rewrite HJ0 in HJ; apply Forall_cons in HJ as [Hjb HJ]);
    rewrite ?Forall_app, ?Forall_cons, ?Forall_singleton; repeat split;
    try assumption; try (by constructor); try (by eapply Hsub).
  simpl. lia.
Qed.

Lemma exec_retries H evs :
  forall w w',
    handlers (wp w) = H -> exec evs w = Some w' ->
    Forall (fun j => Retries j <= MaxRetries j) (submitted evs) ->
    Forall (fun j => Retries j <= MaxRetries j) (jobs_in w ++ calls w ++ rejected w) ->
    Forall (fun j => Retries j <= MaxRetries j) (jobs_in w' ++ calls w' ++ rejected w').
Proof.
  induction evs as [|e evs IH]; intros w w' HH; simpl.
  - by intros [= <-].
  - destruct (step e w) as [w1|] eqn:Hs; [|discriminate].
    intros Hexec Hsub Hok.
    destruct (step_effect H e w w1 HH Hs) as (_ & HH1 & Hcase).
    apply (IH w1 w' HH1 Hexec).
    { destruct e; simpl in Hsub; try assumption. by apply Forall_cons in Hsub as [_ ?]. }
    destruct Hcase as [(_ & Hsubset & -> & _ & _ & ->)|(_ & Heff)].
    + revert Hok. rewrite !Forall_app. intros (HJ & HC & HR). repeat split; try assumption.
      rewrite Forall_forall in *. auto.
    + apply (effect_retries _ _ _ _ _ _ _ _ _ Heff); [|exact Hok].
      intros pick j ->. simpl in Hsub. by apply Forall_cons in Hsub as [? _].
Qed.

(** C5, as the code has it.  In every world a started pool gets to, when
    every job the producers submitted had [Retries = 0] and
    [MaxRetries >= 0], every job the pool holds (queued, being processed,
    waiting in a retry timer), every job a handler was called with and
    every job [SubmitJob] refused has [Retries <= MaxRetries]. *)
Theorem retries_never_exceed_max (p : WorkerPool) (evs : list event) (w : World) :
  configured p ->
  exec evs (Start p) = Some w ->
  Forall (fun j => Retries j = 0 /\ 0 <= MaxRetries j) (submitted evs) ->
  Forall (fun j => Retries j <= MaxRetries j) (jobs_in w ++ calls w ++ rejected w).
Proof.
  intros Hcfg Hexec Hsub.
  apply (exec_retries (handlers p) evs (Start p) w); [reflexivity | exact Hexec | |].
  - eapply Forall_impl; [exact Hsub|]. simpl. intros j [-> ?]. assumption.
  - rewrite (Start_jobs_in p Hcfg). constructor.
Qed.

(** A job with three retries fails twice: its retry timer holds it with a
    count of two. *)
Lemma retries_never_exceed_max_witness :
  let p := RegisterHandler (always_fails "t") (new_pool 1 1) in
  let evs := [ESubmit true (new_job "j1" "t" 0 3); EWorkerRecv 1; EHandlerDone 0 2;
              ETimer 0 true; EWorkerRecv 3; EHandlerDone 0 4] in
  jobs_in (world_after evs (Start p)) = [new_job "j1" "t" 2 3]
  /\ Forall (fun j => Retries j <= MaxRetries j) (jobs_in (world_after evs (Start p))).
Proof.
  intros p evs. split; [vm_compute; reflexivity|].
  pose proof (retries_never_exceed_max p evs (world_after evs (Start p))) as Hw.
  rewrite !Forall_app in Hw. apply Hw.
  - apply configured_register. eapply configured_new.
    by apply (NewWorkerPool_new_pool 1 1).
  - vm_compute. reflexivity.
  - subst evs. simpl. constructor; [split; [reflexivity | simpl; lia] | constructor].
Defined.

(** C5 as stated fails for a negative [MaxRetries]: the job is queued with
    [Retries = 0] above [MaxRetries = -1]. *)
Lemma retries_never_exceed_max_counterexample :
  let job := new_job "j1" "t" 0 (-1) in
  let w := world_after [ESubmit true job] (Start (new_pool 1 1)) in
  exec [ESubmit true job] (Start (new_pool 1 1)) = Some w
  /\ jobs_in w = [job]
  /\ Retries job = 0
  /\ ~ Retries job <= MaxRetries job.
Proof.
  intros job w. split; [vm_compute; reflexivity|].
  split; [vm_compute; reflexivity|]. split; [reflexivity|]. simpl. lia.
Qed.

(** ** WorkerPool: the life of a job whose handler always fails *)

Lemma exec_app evs1 evs2 w w' :
  exec (evs1 ++ evs2) w = Some w' <->
  exists w1, exec evs1 w = Some w1 /\ exec evs2 w1 = Some w'.
Proof.
  revert w. induction evs1 as [|e evs1 IH]; intros w; simpl.
  - split; [eauto | by intros (w1 & [= <-] & ?)].
  - destruct (step e w) as [w0|]; [apply IH|].
    split; [discriminate | by intros (w1 & ? & _)].
Qed.

Lemma submitted_app evs1 evs2 :
  submitted (evs1 ++ evs2) = submitted evs1 ++ submitted evs2.
Proof. apply omap_app. Qed.

Section lifecycle.
Variables (H : gmap string JobHandler) (j0 : Job) (h : JobHandler).
Hypothesis Hh : H !! Type_ j0 = Some h.
Hypothesis Hfail : forall j, Handle h j <> None.
Hypothesis Hr0 : Retries j0 = 0.
Hypothesis HN : 0 <= MaxRetries j0.

Lemma mine_jobs_cons jid j J :
  mine_jobs jid (j :: J)
  = if decide (ID j = jid) then j :: mine_jobs jid J else mine_jobs jid J.
Proof. unfold mine_jobs. by rewrite filter_cons. Qed.

Lemma mine_jobs_snoc jid j J :
  mine_jobs jid (J ++ [j])
  = mine_jobs jid J ++ (if decide (ID j = jid) then [j] else []).
Proof.
  unfold mine_jobs. rewrite filter_app, filter_cons, filter_nil.
  by destruct (decide (ID j = jid)).
Qed.

Lemma mine_results_cons jid r P :
  mine_results jid (r :: P)
  = if decide (JobID r = jid) then r :: mine_results jid P else mine_results jid P.
Proof. unfold mine_results. by rewrite filter_cons. Qed.

Lemma mine_results_snoc jid r P :
  mine_results jid (P ++ [r])
  = mine_results jid P ++ (if decide (JobID r = jid) then [r] else []).
Proof.
  unfold mine_results. rewrite filter_app, filter_cons, filter_nil.
  by destruct (decide (JobID r = jid)).
Qed.

Lemma mine_jobs_perm jid J J' :
  J ≡ₚ J' -> mine_jobs jid J ≡ₚ mine_jobs jid J'.
Proof. intros HJ. unfold mine_jobs. by rewrite HJ. Qed.

Lemma view_same jid L' L :
  same_ledger L' L -> same_ledger (view jid L') (view jid L).
Proof.
  unfold same_ledger, view. simpl. intros (HJ & HC & HP & HD & HR & HQ).
  rewrite HC, HP, HD, HR, HQ. repeat split. by apply mine_jobs_perm.
Qed.

Lemma tracked_same sub V' V :
  same_ledger V' V -> tracked j0 sub V -> tracked j0 sub V'.
Proof.
  intros (HJ & HC & HP & HD & HR & HQ). unfold tracked.
  rewrite HC, HP, HD, HR, HQ.
  intros (Hq & Hf & Hphase). split; [exact Hq|]. split; [exact Hf|].
  destruct sub.
  - destruct Hphase as [(r & Hr & Hj & Hrest)|(Hj & Hrest)].
    + left. exists r. split; [exact Hr|]. split; [|exact Hrest].
      rewrite Hj in HJ. by apply Permutation_singleton_r in HJ.
    + right. split; [|exact Hrest].
      rewrite Hj in HJ. by apply Permutation_nil_r in HJ.
  - destruct Hphase as (Hj & Hrest). split; [|exact Hrest].
    rewrite Hj in HJ. by apply Permutation_nil_r in HJ.
Qed.

Lemma tracked_safe sub V : tracked j0 sub V -> safe j0 V.
Proof.
  unfold tracked, safe. intros (_ & Hf & Hphase). destruct sub.
  - destruct Hphase as [(r & Hr & _ & Hc & Hp & _)|(_ & Hone & Hle & Hfull)].
    + rewrite Hp. repeat split; [lia | simpl; lia | constructor | done].
    + repeat split; [exact Hle | lia | exact Hf |].
      intros Hp. apply Hfull.
      destruct (l_pub V); [done|]. destruct (l_rej V); [done|].
      simpl in Hone. lia.
  - destruct Hphase as (_ & -> & -> & _).
    repeat split; [unfold len; simpl; lia | simpl; lia | constructor | done].
Qed.
Lemma set_retries_0 : set_retries 0 j0 = j0.
Proof. unfold set_retries. rewrite <- Hr0. by destruct j0. Qed.

Lemma incr_set_retries r : incr_retries (set_retries r j0) = set_retries (r + 1) j0.
Proof. reflexivity. Qed.

Ltac books :=
  unfold tracked, view in *; simpl in *;
  rewrite ?mine_jobs_cons, ?mine_jobs_snoc, ?mine_results_cons,
    ?mine_results_snoc in *.

(** The books about [j0] when the job an event is about is another
    one. *)
Lemma tracked_perm sub J J' C P D R Q :
  J ≡ₚ J' ->
  tracked j0 sub (view (ID j0) (mkLedger J C P D R Q)) ->
  tracked j0 sub (view (ID j0) (mkLedger J' C P D R Q)).
Proof.
  intros HJ. apply tracked_same, view_same.
  unfold same_ledger; simpl. by repeat split.
Qed.

(** An event that is not a submission of a job with the identifier of
    [j0] keeps the books about [j0] in order. *)
Lemma effect_tracked sub e J C P D R Q L' :
  effect H e J C P D R Q L' ->
  (forall pick j, e = ESubmit pick j -> ID j <> ID j0) ->
  tracked j0 sub (view (ID j0) (mkLedger J C P D R Q)) ->
  tracked j0 sub (view (ID j0) L').
Proof.
  intros Heff Hne HT.
  destruct Heff as [L' Hl|s Q0 L' HQ Hl|pick j L' He Hl|pick j L' He Hl
                   |jb J0 L' HJ0 Hl|jb J0 nw st L' HJ0 Hnh Hl|jb J0 nw st L' HJ0 Hnh Hl
                   |jb J0 h' L' HJ0 Hh' He Hlt Hl|jb J0 h' nw st L' HJ0 Hh' Hf Hl
                   |jb J0 h' nw st L' HJ0 Hh' Hf Hl];
    apply (tracked_same sub _ _ (view_same (ID j0) _ _ Hl)); clear Hl;
    try (apply (tracked_perm sub _ _ _ _ _ _ _ HJ0) in HT).
  - exact HT.
  - subst Q. books. destruct HT as (Hq & HT).
    destruct (decide (JobID s = ID j0)); [discriminate|].
    rewrite app_nil_r. by split.
  - specialize (Hne _ _ He). books.
    by destruct (decide (ID j = ID j0)).
  - specialize (Hne _ _ He). books.
    destruct (decide (ID j = ID j0)); [done|]. by rewrite app_nil_r.
  - (* a timer's re-submission is refused *)
    books. destruct (decide (ID jb = ID j0)) as [Hmine|]; [|by rewrite app_nil_r].
    destruct HT as (Hq & Hfl & Hph). split; [exact Hq|]. split; [exact Hfl|].
    destruct sub; [|by destruct Hph].
    destruct Hph as [(r & Hr & Hj & Hc & Hp & Hd & Hrj)|(Hj & _)]; [|discriminate].
    injection Hj as -> HJ0'. right. simpl.
    rewrite HJ0', Hp, Hd, Hrj. simpl. repeat split; [lia | discriminate].
  - (* no handler: cannot be [j0] *)
    books. destruct (decide (ID jb = ID j0)) as [Hmine|].
    + exfalso. destruct HT as (_ & _ & Hph).
      destruct sub; [|by destruct Hph].
      destruct Hph as [(r & _ & Hj & _)|(Hj & _)]; [|discriminate].
      injection Hj as -> _. simpl in Hnh. congruence.
    + unfold no_handler_result at 1. simpl.
      destruct (decide (ID jb = ID j0)); [done|]. by rewrite app_nil_r.
  - books. destruct (decide (ID jb = ID j0)) as [Hmine|].
    + exfalso. destruct HT as (_ & _ & Hph).
      destruct sub; [|by destruct Hph].
      destruct Hph as [(r & _ & Hj & _)|(Hj & _)]; [|discriminate].
      injection Hj as -> _. simpl in Hnh. congruence.
    + unfold no_handler_result at 1. simpl.
      destruct (decide (ID jb = ID j0)); [done|]. by rewrite app_nil_r.
  - (* a failed attempt that is retried *)
    books. simpl. destruct (decide (ID jb = ID j0)) as [Hmine|];
      [|by rewrite app_nil_r].
    destruct HT as (Hq & Hfl & Hph). split; [exact Hq|]. split; [exact Hfl|].
    destruct sub; [|by destruct Hph].
    destruct Hph as [(r & Hr & Hj & Hc & Hp & Hd & Hrj)|(Hj & _)]; [|discriminate].
    injection Hj as -> HJ0'. left. exists (r + 1). simpl in Hlt.
    rewrite HJ0', incr_set_retries. unfold len in *. rewrite length_app. simpl.
    repeat split; try assumption; lia.
  - (* the last attempt, its result published *)
    books. unfold handler_result at 1 2. simpl.
    destruct (decide (ID jb = ID j0)) as [Hmine|]; [|by rewrite !app_nil_r].
    destruct HT as (Hq & Hfl & Hph). split; [exact Hq|].
    destruct sub; [|by destruct Hph].
    destruct Hph as [(r & Hr & Hj & Hc & Hp & Hd & Hrj)|(Hj & _)]; [|discriminate].
    injection Hj as -> HJ0'. simpl in Hh', Hf. rewrite Hh in Hh'. injection Hh' as <-.
    destruct Hf as [Hf|Hf]; [by apply Hfail in Hf|]. simpl in Hf.
    rewrite Hp, HJ0', Hd, Hrj. simpl. split.
    + constructor; [|constructor]. simpl. apply bool_decide_eq_false, Hfail.
    + right. unfold len in *. rewrite length_app. simpl.
      repeat split; lia.
  - (* the last attempt, its result dropped *)
    books. unfold handler_result at 1. simpl.
    destruct (decide (ID jb = ID j0)) as [Hmine|]; [|by rewrite !app_nil_r].
    destruct HT as (Hq & Hfl & Hph). split; [exact Hq|]. split; [exact Hfl|].
    destruct sub; [|by destruct Hph].
    destruct Hph as [(r & Hr & Hj & Hc & Hp & Hd & Hrj)|(Hj & _)]; [|discriminate].
    injection Hj as -> HJ0'. simpl in Hh', Hf. rewrite Hh in Hh'. injection Hh' as <-.
    destruct Hf as [Hf|Hf]; [by apply Hfail in Hf|]. simpl in Hf.
    rewrite Hp, HJ0', Hd, Hrj. simpl. right. unfold len in *. rewrite length_app. simpl.
    repeat split; lia.
Qed.
Lemma step_run_inv sub e w w' :
  handlers (wp w) = H ->
  (forall pick j, e = ESubmit pick j -> ID j <> ID j0) ->
  run_inv j0 sub w -> step e w = Some w' ->
  handlers (wp w') = H /\ run_inv j0 sub w'.
Proof.
  intros HH Hne [Hsafe Htr] Hs.
  destruct (step_effect H e w w' HH Hs) as (Hc & HH' & Hcase).
  split; [exact HH'|].
  destruct Hcase as [(Hc' & _ & Hcalls & Hpub & _)|(Hc' & Heff)].
  - split; [|congruence]. unfold safe, view, ledger_of in *. simpl in *.
    by rewrite Hcalls, Hpub.
  - assert (HT : tracked j0 sub (view (ID j0) (ledger_of w'))).
    { eapply effect_tracked; [exact Heff | exact Hne | by apply Htr]. }
    split; [by eapply tracked_safe | done].
Qed.

Lemma exec_run_inv sub evs :
  forall w w',
    handlers (wp w) = H ->
    Forall (fun j => ID j <> ID j0) (submitted evs) ->
    run_inv j0 sub w -> exec evs w = Some w' ->
    handlers (wp w') = H /\ run_inv j0 sub w'.
Proof.
  induction evs as [|e evs IH]; intros w w' HH Hsub Hinv; simpl.
  - by intros [= <-].
  - destruct (step e w) as [w1|] eqn:Hs; [|discriminate]. intros Hexec.
    destruct (step_run_inv sub e w w1 HH) as [HH1 Hinv1]; try assumption.
    { intros pick j ->. simpl in Hsub. by apply Forall_cons in Hsub as [? _]. }
    apply (IH w1 w' HH1); try assumption.
    destruct e; simpl in Hsub; try assumption. by apply Forall_cons in Hsub as [_ ?].
Qed.

(** The submission of [j0]: it is queued, or refused, or the call
    panics. *)
Lemma submit_run_inv pick w w' :
  handlers (wp w) = H ->
  run_inv j0 false w -> step (ESubmit pick j0) w = Some w' ->
  handlers (wp w') = H /\ run_inv j0 true w'.
Proof.
  intros HH [Hsafe Htr] Hs.
  destruct (step_effect H _ w w' HH Hs) as (Hc & HH' & _).
  split; [exact HH'|].
  unfold step in Hs. rewrite Hc in Hs. injection Hs as <-.
  destruct (do_submit_effect pick j0 w Hc)
    as [(Hc' & _ & Hcalls & Hpub & _)|(Hc' & Hl)].
  - split; [|congruence]. unfold safe, view, ledger_of in *. simpl in *.
    by rewrite Hcalls, Hpub.
  - specialize (Htr Hc).
    assert (HT : tracked j0 true (view (ID j0) (ledger_of (do_submit pick j0 w)))).
    { destruct Hl as [Hl|Hl];
        apply (tracked_same true _ _ (view_same (ID j0) _ _ Hl)); clear Hl;
        books; (destruct (decide (ID j0 = ID j0)); [|done]);
        destruct Htr as (Hq & Hfl & Hj & Hcl & Hp & Hd & Hrj);
        (split; [exact Hq|]); (split; [exact Hfl|]).
      - left. exists 0. rewrite set_retries_0, Hj, Hcl, Hp, Hd, Hrj.
        repeat split; try done; lia.
      - right. rewrite Hj, Hcl, Hp, Hd, Hrj. simpl.
        repeat split; try done; unfold len; simpl; lia. }
    split; [by eapply tracked_safe | done].
Qed.

(** Once the pool no longer holds a job with the identifier [jid] and no
    result about it is parked, an event that is not a submission of such
    a job leaves the books about [jid] as they are. *)
Lemma effect_frozen jid e J C P D R Q L' :
  effect H e J C P D R Q L' ->
  (forall pick j, e = ESubmit pick j -> ID j <> jid) ->
  mine_jobs jid J = [] -> mine_results jid Q = [] ->
  view jid L' = view jid (mkLedger J C P D R Q).
Proof.
  intros Heff Hne HJ HQ.
  assert (Hfrom : forall X, same_ledger L' X ->
            mine_jobs jid (l_jobs X) = [] ->
            mine_jobs jid (l_calls X) = mine_jobs jid C ->
            mine_results jid (l_pub X) = mine_results jid P ->
            mine_results jid (l_drop X) = mine_results jid D ->
            mine_jobs jid (l_rej X) = mine_jobs jid R ->
            mine_results jid (l_parked X) = mine_results jid Q ->
            view jid L' = view jid (mkLedger J C P D R Q)).
  { intros X (H1 & H2 & H3 & H4 & H5 & H6) HXJ HXC HXP HXD HXR HXQ.
    unfold view. simpl. rewrite H2, H3, H4, H5, H6, HXC, HXP, HXD, HXR, HXQ, HJ.
    f_equal. apply (mine_jobs_perm jid) in H1. rewrite HXJ in H1.
    by apply Permutation_nil_r in H1. }
  assert (Hother : forall jb J0, J ≡ₚ jb :: J0 ->
            ID jb <> jid /\ mine_jobs jid J0 = []).
  { intros jb J0 HJ0. apply (mine_jobs_perm jid) in HJ0. rewrite HJ in HJ0.
    symmetry in HJ0. apply Permutation_nil_r in HJ0.
    rewrite mine_jobs_cons in HJ0. by destruct (decide (ID jb = jid)). }
  destruct Heff as [L' Hl|s Q0 L' HQ0 Hl|pick j L' He Hl|pick j L' He Hl
                   |jb J0 L' HJ0 Hl|jb J0 nw st L' HJ0 Hnh Hl|jb J0 nw st L' HJ0 Hnh Hl
                   |jb J0 h' L' HJ0 Hh' He Hlt Hl|jb J0 h' nw st L' HJ0 Hh' Hf Hl
                   |jb J0 h' nw st L' HJ0 Hh' Hf Hl];
    try (destruct (Hother _ _ HJ0) as [Hjb HJ0']);
    apply (Hfrom _ Hl); simpl;
    rewrite ?mine_jobs_cons, ?mine_jobs_snoc, ?mine_results_cons,
      ?mine_results_snoc; simpl;
    try (destruct (decide (ID jb = jid)); [done|]);
    rewrite ?app_nil_r; try done.
  - subst Q. rewrite mine_results_cons in HQ.
    destruct (decide (JobID s = jid)); [discriminate | by rewrite app_nil_r].
  - subst Q. rewrite mine_results_cons in HQ |- *.
    by destruct (decide (JobID s = jid)).
  - specialize (Hne _ _ He). by destruct (decide (ID j = jid)).
  - specialize (Hne _ _ He). destruct (decide (ID j = jid)); [done|].
    by rewrite app_nil_r.
Qed.
End lifecycle.

Lemma exec_crashed evs w w' :
  crashed w = true -> exec evs w = Some w' -> w' = w.
Proof.
  intros Hc. destruct evs as [|e evs]; simpl; [by intros [= <-]|].
  unfold step. by rewrite Hc.
Qed.

(** Once the pool no longer holds the job, the logs about it do not
    change. *)
Lemma exec_frozen H jid evs :
  forall w w',
    handlers (wp w) = H ->
    Forall (fun j => ID j <> jid) (submitted evs) ->
    mine_jobs jid (jobs_in w) = [] ->
    mine_results jid (sendq (resultQueue (wp w))) = [] ->
    exec evs w = Some w' ->
    mine_jobs jid (calls w') = mine_jobs jid (calls w)
    /\ mine_results jid (published w') = mine_results jid (published w).
Proof.
  induction evs as [|e evs IH]; intros w w' HH Hsub HJ HQ; simpl.
  - by intros [= <-].
  - destruct (step e w) as [w1|] eqn:Hs; [|discriminate]. intros Hexec.
    destruct (step_effect H e w w1 HH Hs) as (Hc & HH1 & Hcase).
    destruct Hcase as [(Hc1 & _ & Hcalls & Hpub & _)|(Hc1 & Heff)].
    + apply (exec_crashed _ _ _ Hc1) in Hexec. subst w'. by rewrite Hcalls, Hpub.
    + apply (effect_frozen H jid) in Heff; try assumption.
      2:{ intros pick j ->. simpl in Hsub. by apply Forall_cons in Hsub as [? _]. }
      unfold view, ledger_of in Heff. simpl in Heff.
      injection Heff as HJ1 HC1 HP1 _ _ HQ1.
      rewrite <- HC1, <- HP1. apply (IH w1 w' HH1); try assumption.
      * destruct e; simpl in Hsub; try assumption.
        by apply Forall_cons in Hsub as [_ ?].
      * by rewrite HJ1.
      * by rewrite HQ1.
Qed.

Lemma Start_run_inv p j0 :
  configured p -> 0 <= MaxRetries j0 -> run_inv j0 false (Start p).
Proof.
  intros Hcfg HN. destruct (configured_empty p Hcfg) as [_ Hrq].
  assert (HT : tracked j0 false (view (ID j0) (ledger_of (Start p)))).
  { unfold tracked, view, ledger_of. simpl.
    rewrite (Start_jobs_in p Hcfg), Hrq. simpl. repeat split. constructor. }
  split; [by eapply tracked_safe | done].
Qed.




(** * Further properties *)

(** ** ConcurrentCache: Delete, Clear, overwriting, the sweep *)

Section cache_more.
Context `{Countable K} {V : Type} (zero : V).
Implicit Types (c : ConcurrentCache K V) (k : K) (v : V) (now t : Z).

Lemma Get_other_key c c' t k :
  items c' !! k = items c !! k ->
  (ConcurrentCache_Get zero t k c').1 = (ConcurrentCache_Get zero t k c).1.
Proof.
  intros Hk. unfold ConcurrentCache_Get. rewrite Hk.
  destruct (items c !! k) as [item|]; [destruct (IsExpired t item)|]; reflexivity.
Qed.

Lemma Get_absent c t k :
  items c !! k = None -> (ConcurrentCache_Get zero t k c).1 = (zero, false).
Proof. intros Hk. unfold ConcurrentCache_Get. by rewrite Hk. Qed.

(** X1.  After [Delete(k)] a [Get(k)] misses at any time, whatever was
    stored and whether it had expired; the other keys read as before; and
    [Size] drops by one when the key was present (expired or not) and is
    unchanged when it was absent. *)
Theorem cache_delete c t k k' :
  (ConcurrentCache_Get zero t k (ConcurrentCache_Delete k c)).1 = (zero, false)
  /\ (k' <> k ->
      (ConcurrentCache_Get zero t k' (ConcurrentCache_Delete k c)).1
      = (ConcurrentCache_Get zero t k' c).1)
  /\ ConcurrentCache_Size (ConcurrentCache_Delete k c)
     = ConcurrentCache_Size c - (match items c !! k with Some _ => 1 | None => 0 end).
Proof.
  split; [|split].
  - apply Get_absent. simpl. apply lookup_delete_eq.
  - intros Hne. apply Get_other_key. simpl. by apply lookup_delete_ne.
  - unfold ConcurrentCache_Size. simpl. rewrite map_size_delete.
    destruct (items c !! k) eqn:Hk; simpl; [|lia].
    assert (size (items c) <> 0%nat); [|lia].
    intros H0. apply map_size_empty_inv in H0. rewrite H0 in Hk.
    by rewrite lookup_empty in Hk.
Qed.

(** X2.  A second [Set] on a key replaces the entry: the cache is the one
    the second write alone would give, with the expiry counted from the
    second write.  A [Set] leaves the other keys as they read before, and
    [Size] grows by one for a key that was absent and not at all for a key
    that was present, expired or not. *)
Theorem cache_set_overwrite c now1 now2 t k k' v1 v2 :
  ConcurrentCache_Set now2 k v2 (ConcurrentCache_Set now1 k v1 c)
  = ConcurrentCache_Set now2 k v2 c
  /\ items (ConcurrentCache_Set now2 k v2 (ConcurrentCache_Set now1 k v1 c)) !! k
     = Some (mkCacheItem v2 (now2 + ttl c))
  /\ (k' <> k ->
      (ConcurrentCache_Get zero t k' (ConcurrentCache_Set now1 k v1 c)).1
      = (ConcurrentCache_Get zero t k' c).1)
  /\ ConcurrentCache_Size (ConcurrentCache_Set now1 k v1 c)
     = ConcurrentCache_Size c + (match items c !! k with Some _ => 0 | None => 1 end).
Proof.
  split; [|split; [|split]].
  - unfold ConcurrentCache_Set. simpl. by rewrite insert_insert_eq.
  - simpl. apply lookup_insert_eq.
  - intros Hne. apply Get_other_key. simpl. by apply lookup_insert_ne.
  - unfold ConcurrentCache_Size. simpl. rewrite map_size_insert.
    destruct (items c !! k); simpl; lia.
Qed.

(** X3.  [Clear] empties the cache: [Size] is zero and every [Get]
    misses; the ttl is kept, so that a later [Set] expires as before. *)
Theorem cache_clear c now t k v :
  ConcurrentCache_Size (ConcurrentCache_Clear c) = 0
  /\ (ConcurrentCache_Get zero t k (ConcurrentCache_Clear c)).1 = (zero, false)
  /\ items (ConcurrentCache_Set now k v (ConcurrentCache_Clear c))
     = {[k := mkCacheItem v (now + ttl c)]}.
Proof.
  split; [|split].
  - unfold ConcurrentCache_Size. simpl. by rewrite map_size_empty.
  - apply Get_absent. simpl. apply lookup_empty.
  - reflexivity.
Qed.

(** X4.  A sweep at time [t] keeps exactly the entries that have not
    expired at [t]; it never makes the cache larger; and no [Get] at [t]
    or later can tell whether the sweep has run. *)
Theorem cache_sweep c t t' k :
  t <= t' ->
  (forall item, items (cleanup_tick t c) !! k = Some item
                <-> items c !! k = Some item /\ t <= ExpiresAt item)
  /\ ConcurrentCache_Size (cleanup_tick t c) <= ConcurrentCache_Size c
  /\ (ConcurrentCache_Get zero t' k (cleanup_tick t c)).1
     = (ConcurrentCache_Get zero t' k c).1.
Proof.
  intros Ht.
  assert (Hiff : forall item, items (cleanup_tick t c) !! k = Some item
                   <-> items c !! k = Some item /\ t <= ExpiresAt item).
  { intros item. unfold cleanup_tick. simpl. rewrite map_lookup_filter_Some.
    simpl. unfold IsExpired. rewrite Z.ltb_ge. reflexivity. }
  split; [exact Hiff|]. split.
  - unfold ConcurrentCache_Size, cleanup_tick. simpl.
    apply inj_le, map_subseteq_size, map_filter_subseteq.
  - unfold ConcurrentCache_Get.
    destruct (items c !! k) as [item|] eqn:Hk.
    + destruct (Z.le_gt_cases t (ExpiresAt item)) as [Hlive|Hdead].
      * rewrite (proj2 (Hiff item) (conj eq_refl Hlive)).
        by destruct (IsExpired t' item).
      * rewrite (cleanup_tick_removes c t k item Hk) by lia.
        unfold IsExpired. destruct (Z.ltb_spec (ExpiresAt item) t'); [reflexivity | lia].
    + destruct (items (cleanup_tick t c) !! k) as [item|] eqn:Hk'; [|reflexivity].
      destruct (proj1 (Hiff item) eq_refl) as [? _]. discriminate.
Qed.

(** X5.  A new cache is empty.  The sweeper it starts panics on its
    ticker exactly when the ttl is below two nanoseconds (half of it is
    then not positive); otherwise it ticks every half ttl, rounded
    down. *)
Theorem cache_new (ttl0 t : Z) k :
  ConcurrentCache_Size (NewConcurrentCache (K := K) (V := V) ttl0) = 0
  /\ (ConcurrentCache_Get zero t k (NewConcurrentCache ttl0)).1 = (zero, false)
  /\ (cleanup_ticker (NewConcurrentCache (K := K) (V := V) ttl0) = Panic <-> ttl0 < 2)
  /\ (2 <= ttl0 ->
      cleanup_ticker (NewConcurrentCache (K := K) (V := V) ttl0) = Ret (ttl0 / 2)).
Proof.
  split; [|split; [|split]].
  - unfold ConcurrentCache_Size. simpl. by rewrite map_size_empty.
  - apply Get_absent. simpl. apply lookup_empty.
  - unfold cleanup_ticker. simpl.
    destruct (Z.leb_spec (ttl0 ÷ 2) 0) as [Hle|Hgt].
    + split; [intros _|reflexivity].
      destruct (Z.lt_ge_cases ttl0 2); [assumption|].
      rewrite Z.quot_div_nonneg in Hle by lia.
      assert (1 <= ttl0 / 2) by (apply Z.div_le_lower_bound; lia). lia.
    + split; [discriminate|]. intros Hlt. exfalso.
      destruct (Z.le_gt_cases 0 ttl0).
      * rewrite Z.quot_small in Hgt by lia. lia.
      * pose proof (Z.quot_opp_l ttl0 2 ltac:(lia)) as Hq.
        assert (0 <= (- ttl0) ÷ 2) by (apply Z.quot_pos; lia). lia.
  - intros Hge. unfold cleanup_ticker. simpl.
    rewrite Z.quot_div_nonneg by lia.
    assert (1 <= ttl0 / 2) by (apply Z.div_le_lower_bound; lia).
    destruct (Z.leb_spec (ttl0 / 2) 0); [lia | reflexivity].
Qed.
End cache_more.

(** The sweep of X4 on a cache with a ttl of 5: written at 100, swept at
    103, read at 104. *)
Lemma cache_sweep_witness :
  let c := ConcurrentCache_Set 100 "k"%string 7 (NewConcurrentCache 5) in
  (ConcurrentCache_Get 0 104 "k"%string (cleanup_tick 103 c)).1 = (7, true).
Proof.
  intros c.
  destruct (cache_sweep 0 c 103 104 "k"%string) as (_ & _ & Hget); [lia|].
  rewrite Hget. reflexivity.
Defined.

(** ** BatchProcessor: the number of batches, every item once, no worker *)

Lemma concat_perm {A : Type} (l l' : list (list A)) :
  l ≡ₚ l' -> concat l ≡ₚ concat l'.
Proof.
  induction 1 as [|x l l' _ IH|x y l|l l' l'' _ IH1 _ IH2]; simpl.
  - reflexivity.
  - by rewrite IH.
  - rewrite !app_assoc. f_equiv. apply Permutation_app_comm.
  - by rewrite IH1.
Qed.

(** Batches that are all full but the last hold [(n-1) * bs + l] items,
    [l] being the size of the last. *)
Lemma full_batches_total {A : Type} (bs : Z) (batches : list (list A)) :
  Forall (fun b => 0 < len b <= bs) batches ->
  (forall k b, (S k < length batches)%nat -> batches !! k = Some b -> len b = bs) ->
  batches <> [] ->
  exists l, 0 < l <= bs /\ len (concat batches) = (len batches - 1) * bs + l.
Proof.
  induction batches as [|b rest IH]; [done|]. intros Hall Hfull _.
  apply Forall_cons in Hall as [Hb Hall].
  destruct rest as [|b' rest'].
  - exists (len b). simpl. rewrite app_nil_r. unfold len in *. simpl. lia.
  - destruct IH as (l & Hl & Hsum); [exact Hall | | done |].
    { intros k x Hk Hx. apply (Hfull (S k) x); [simpl in *; lia | exact Hx]. }
    exists l. split; [exact Hl|].
    pose proof (Hfull 0%nat b ltac:(simpl; lia) eq_refl) as Hfirst.
    change (concat (b :: b' :: rest')) with (b ++ concat (b' :: rest')).
    unfold len in *. rewrite length_app. simpl length in *. lia.
Qed.

(** X6.  With a batch size of at least one, [createBatches] makes
    [ceil(len(items) / batchSize)] batches (none for an empty input). *)
Theorem batch_count {T : Type} (bp : BatchProcessor T) (items : list T) (fuel : nat) :
  0 < batchSize bp -> (length items <= fuel)%nat ->
  exists batches,
    createBatches fuel bp items = Ret batches
    /\ len batches = (len items + batchSize bp - 1) / batchSize bp.
Proof.
  intros Hbs Hfuel.
  destruct (createBatches_spec bp items fuel Hbs Hfuel)
    as (batches & Hb & Hcat & Hall & Hfull).
  exists batches. split; [exact Hb|].
  destruct batches as [|b rest].
  - simpl in Hcat. subst items. unfold len. simpl.
    symmetry. apply Z.div_small. lia.
  - destruct (full_batches_total (batchSize bp) (b :: rest) Hall Hfull)
      as (l & Hl & Hsum); [done|].
    rewrite Hcat in Hsum. rewrite Hsum.
    apply (Z.div_unique _ _ _ (l - 1)); [lia|]. lia.
Qed.

(** Seven items in batches of three make three batches. *)
Lemma batch_count_witness :
  exists batches,
    createBatches 7 (mkBatchProcessor 3 1 (fun _ : list Z => None))
      [1; 2; 3; 4; 5; 6; 7] = Ret batches
    /\ len batches = 3.
Proof.
  destruct (batch_count (mkBatchProcessor 3 1 (fun _ : list Z => None))
              [1; 2; 3; 4; 5; 6; 7] 7) as (batches & Hb & Hn);
    [simpl; lia | simpl; lia |].
  exists batches. split; [exact Hb|]. rewrite Hn. reflexivity.
Defined.

(** X7.  With a batch size and a worker bound of at least one and every
    batch goroutine run once, the processing function receives every item
    of the input exactly once over all its calls, whichever batches
    fail. *)
Theorem batch_items_once {T : Type} (bp : BatchProcessor T) (items : list T)
    (sched : list nat) (fuel : nat) :
  0 < batchSize bp -> 0 < maxWorkers bp -> (length items <= fuel)%nat ->
  (forall batches, createBatches fuel bp items = Ret batches ->
                   sched ≡ₚ seq 0 (length batches)) ->
  concat (BatchProcessor_Process sched fuel bp items).2 ≡ₚ items.
Proof.
  intros Hbs Hmw Hfuel Hsched.
  destruct items as [|x items]; [reflexivity|].
  destruct (createBatches_spec bp (x :: items) fuel Hbs Hfuel)
    as (batches & Hb & Hcat & _).
  assert (Hne : x :: items <> []) by done.
  rewrite (Process_run sched fuel bp _ batches Hne Hmw Hb). simpl.
  rewrite (Hsched batches Hb), omap_lookup_seq. by rewrite Hcat.
Qed.

(** Five items in batches of two, the goroutines finishing in the order
    2, 0, 1. *)
Lemma batch_items_once_witness :
  concat (BatchProcessor_Process [2; 0; 1]%nat 5
            (mkBatchProcessor 2 1 (fun _ : list Z => Some (Err "no")))
            [1; 2; 3; 4; 5]).2
  ≡ₚ [1; 2; 3; 4; 5].
Proof.
  apply batch_items_once; [simpl; lia | simpl; lia | simpl; lia |].
  intros batches Hb. vm_compute in Hb. injection Hb as <-. simpl.
  change [2; 0; 1]%nat with ([2] ++ [0; 1])%nat.
  rewrite Permutation_app_comm. reflexivity.
Defined.



(** X9.  When the batch size is at least the length of a non-empty input,
    the whole input is one batch: the processing function is called once,
    on the input, and [Process] returns what it returns. *)
Theorem batch_single {T : Type} (bp : BatchProcessor T) (items : list T) (fuel : nat) :
  len items <= batchSize bp -> 0 < maxWorkers bp -> (length items <= fuel)%nat ->
  items <> [] ->
  createBatches fuel bp items = Ret [items]
  /\ BatchProcessor_Process [0%nat] fuel bp items = (Ret (processor bp items), [items]).
Proof.
  intros Hlen Hmw Hfuel Hne.
  assert (Hbs : 0 < batchSize bp).
  { destruct items; [done | unfold len in Hlen; simpl in Hlen; lia]. }
  destruct (createBatches_spec bp items fuel Hbs Hfuel)
    as (batches & Hb & Hcat & Hall & Hfull).
  assert (Hone : batches = [items]).
  { destruct batches as [|b [|b' rest]].
    - simpl in Hcat. by subst items.
    - simpl in Hcat. rewrite app_nil_r in Hcat. by subst b.
    - exfalso. pose proof (Hfull 0%nat b ltac:(simpl; lia) eq_refl) as Hfirst.
      apply Forall_cons in Hall as [_ [Hb' _]%Forall_cons].
      apply (f_equal length) in Hcat. simpl in Hcat.
      rewrite !length_app in Hcat. unfold len in *. lia. }
  subst batches. split; [exact Hb|].
  rewrite (Process_run [0%nat] fuel bp items [items] Hne Hmw Hb).
  unfold first_error_in_order. simpl. by destruct (processor bp items).
Qed.

(** Two items and a batch size of ten. *)
Lemma batch_single_witness :
  createBatches 2 (mkBatchProcessor 10 1 (fun _ : list Z => None)) [1; 2]
  = Ret [[1; 2]].
Proof.
  destruct (batch_single (mkBatchProcessor 10 1 (fun _ : list Z => None)) [1; 2] 2)
    as [Hb _]; [unfold len; simpl; lia | simpl; lia | simpl; lia | discriminate |].
  exact Hb.
Defined.

(** ** Pipeline: a run without error, the order of the stages *)



Lemma run_stages_app {T : Type} (sts1 sts2 : list (Stage T)) :
  forall input,
    run_stages (sts1 ++ sts2) input
    = let '(mid, rets1) := run_stages sts1 input in
      let '(final, rets2) := run_stages sts2 mid in
      (final, rets1 ++ rets2).
Proof.
  induction sts1 as [|st sts1 IH]; intros input; simpl.
  - by destruct (run_stages sts2 input).
  - destruct (st input) as [out e]. rewrite IH.
    destruct (run_stages sts1 out) as [mid rets1].
    by destruct (run_stages sts2 mid).
Qed.

(** X11.  The stages run in the order they were added: the stage added
    last reads what the stages added before it produce, and what it sends
    is the output of the pipeline. *)
Theorem pipeline_stage_order {T : Type} (p : Pipeline T) (st : Stage T)
    (input : list T) :
  let '(mid, rets) := run_stages (stages p) input in
  run_stages (stages (AddStage st p)) input = ((st mid).1, rets ++ [(st mid).2]).
Proof.
  unfold AddStage. simpl. rewrite run_stages_app.
  destruct (run_stages (stages p) input) as [mid rets]. simpl.
  by destruct (st mid).
Qed.

(** ** WorkerPool: bounds, statistics, submission before Stop *)

(** What [do_submit] changes: the job queue when the job is accepted, the
    flag [crashed] when the job queue is closed, and the log of refused
    jobs. *)
Lemma do_submit_shape pick job w :
  let w' := do_submit pick job w in
  resultQueue (wp w') = resultQueue (wp w)
  /\ workers (wp w') = workers (wp w) /\ quit (wp w') = quit (wp w)
  /\ ctx_done (wp w') = ctx_done (wp w) /\ stop_waiting w' = stop_waiting w
  /\ at_select w' = at_select w /\ running w' = running w
  /\ ((crashed w' = true /\ closed (jobQueue (wp w)) = true
       /\ jobQueue (wp w') = jobQueue (wp w))
      \/ (crashed w' = crashed w
          /\ (jobQueue (wp w') = jobQueue (wp w)
              \/ try_send (jobQueue (wp w)) job = Sent (jobQueue (wp w'))))).
Proof.
  intros w'. subst w'. unfold do_submit, SubmitJob.
  destruct (try_send (jobQueue (wp w)) job) as [|q|] eqn:Hs;
    destruct (ctx_done (wp w)) eqn:Hd; try destruct pick; simpl;
    repeat split; try assumption;
    try (right; split; [reflexivity|]; by (left + right));
    left; repeat split; by apply try_send_SendPanic in Hs.
Qed.

(** What [processJob] changes beside the logs and the timers: the result
    queue, which stays open with its capacity, and the worker, which goes
    back to its select or parks in the send. *)
Lemma processJob_shape now start job w w' :
  processJob now w start job = Ret w' ->
  jobQueue (wp w') = jobQueue (wp w)
  /\ workers (wp w') = workers (wp w) /\ quit (wp w') = quit (wp w)
  /\ ctx_done (wp w') = ctx_done (wp w) /\ stop_waiting w' = stop_waiting w
  /\ crashed w' = crashed w /\ running w' = running w
  /\ cap (resultQueue (wp w')) = cap (resultQueue (wp w))
  /\ (closed (resultQueue (wp w)) = false
      -> closed (resultQueue (wp w')) = false)
  /\ (at_select w' + length (sendq (resultQueue (wp w'))))%nat
     = S (at_select w + length (sendq (resultQueue (wp w)))).
Proof.
  assert (Hsend : forall r w0 w1,
            (send_or_drop r w0 = Ret w1 \/ send_blocking r w0 = Ret w1) ->
            jobQueue (wp w1) = jobQueue (wp w0)
            /\ workers (wp w1) = workers (wp w0) /\ quit (wp w1) = quit (wp w0)
            /\ ctx_done (wp w1) = ctx_done (wp w0)
            /\ stop_waiting w1 = stop_waiting w0
            /\ crashed w1 = crashed w0 /\ running w1 = running w0
            /\ cap (resultQueue (wp w1)) = cap (resultQueue (wp w0))
            /\ (closed (resultQueue (wp w0)) = false
                -> closed (resultQueue (wp w1)) = false)
            /\ (at_select w1 + length (sendq (resultQueue (wp w1))))%nat
               = S (at_select w0 + length (sendq (resultQueue (wp w0))))).
  { intros r w0 w1. unfold send_or_drop, send_blocking.
    destruct (try_send (resultQueue (wp w0)) r) as [|q|] eqn:Hs;
      intros [[= <-]|[= <-]]; simpl;
      try (apply try_send_Sent in Hs as (_ & Hcl & Hsq & Hcap & _));
      repeat split; try done; rewrite ?Hsq, ?length_app; simpl; lia. }
  unfold processJob.
  destruct (handlers (wp w) !! Type_ job) as [h|];
    [destruct (Handle h job); [destruct (Retries job <? MaxRetries job)|]|].
  - intros [= <-]. simpl. repeat split; done.
  - intros Hs. apply (Hsend _ (log_call job w) w' (or_introl Hs)).
  - intros Hs. apply (Hsend _ (log_call job w) w' (or_introl Hs)).
  - intros Hs. apply (Hsend _ w w' (or_intror Hs)).
Qed.

Lemma try_recv_shorter {A : Type} (c c' : chan A) (v : A) (woken : option A) :
  try_recv c = Received v c' woken ->
  len (buf c') <= len (buf c)
  /\ (length (sendq c) = length (option_list woken) + length (sendq c'))%nat.
Proof.
  intros Hr. apply try_recv_Received in Hr as (_ & _ & _ & _ & Happ & Hsq & _).
  split; [|by rewrite Hsq, length_app].
  rewrite Hsq in Happ. apply (f_equal length) in Happ.
  unfold len. destruct woken; simpl in Happ;
    rewrite ?length_app in Happ; simpl in Happ; rewrite ?length_app in Happ; lia.
Qed.

Lemma processJob_open now start job w :
  closed (resultQueue (wp w)) = false ->
  exists w', processJob now w start job = Ret w'.
Proof.
  intros Hopen. unfold processJob, send_or_drop, send_blocking.
  destruct (handlers (wp w) !! Type_ job) as [h|];
    [destruct (Handle h job); [destruct (Retries job <? MaxRetries job)|]|];
    simpl; try (by eexists);
    (destruct (try_send (resultQueue (wp w)) _) as [|q|] eqn:Hs;
     [apply try_send_SendPanic in Hs; simpl in Hs; congruence | by eexists ..]).
Qed.

Lemma processJob_closed now start job w w' :
  processJob now w start job = Ret w' ->
  closed (resultQueue (wp w')) = closed (resultQueue (wp w)).
Proof.
  unfold processJob, send_or_drop, send_blocking.
  destruct (handlers (wp w) !! Type_ job) as [h|];
    [destruct (Handle h job); [destruct (Retries job <? MaxRetries job)|]|];
    simpl; try (intros [= <-]; by simpl);
    destruct (try_send (resultQueue (wp w)) _) as [|q|] eqn:Hs;
    intros [= <-]; simpl; try done;
    apply try_send_Sent in Hs as (? & ? & _); congruence.
Qed.

Lemma pool_bounds_crash p w :
  pool_bounds p w -> quit (wp w) = true -> pool_bounds p (crash w).
Proof.
  intros [Hw Hcj Hcr Hj Ha Hrun Hwait Hcl2 Hcan] Hq.
  constructor; simpl; try assumption. intros Hq'. congruence.
Qed.

Lemma do_submit_bounds p pick job w :
  pool_bounds p w -> pool_bounds p (do_submit pick job w).
Proof.
  intros [Hw Hcj Hcr Hj Ha Hrun Hwait Hcl2 Hcan].
  destruct (do_submit_shape pick job w)
    as (Hrq & Hwk & Hq & Hd & Hsw & Has & Hrn & Hcase).
  assert (Hjq : jobQueue (wp (do_submit pick job w)) = jobQueue (wp w)
                \/ try_send (jobQueue (wp w)) job
                   = Sent (jobQueue (wp (do_submit pick job w)))).
  { destruct Hcase as [(_ & _ & ?)|(_ & ?)]; [by left | assumption]. }
  constructor.
  - congruence.
  - destruct Hjq as [->|Hs]; [assumption|].
    apply try_send_Sent in Hs as (_ & _ & _ & -> & _). assumption.
  - congruence.
  - destruct Hjq as [->|Hs]; [assumption|]. by eapply try_send_bounded.
  - unfold alive_workers in *. rewrite Hrq, Has, Hrn.
    destruct Hjq as [->|Hs]; [assumption|].
    apply try_send_Sent in Hs as (_ & _ & _ & _ & Hc).
    destruct Hc as [(H1 & H2 & _)|(H1 & H2 & _ & H3 & _)];
      rewrite ?H2, ?H3, ?length_app; simpl; lia.
  - rewrite Hq, Hd, Hrq, Hsw. intros Hq0.
    destruct (Hrun Hq0) as (Hd0 & Hcj0 & Hcr0 & Hsw0 & Hc0).
    repeat split; try assumption.
    + destruct Hjq as [->|Hs]; [assumption|].
      by apply try_send_Sent in Hs as (_ & ? & _).
    + destruct Hcase as [(_ & ? & _)|(-> & _)]; [congruence | assumption].
  - rewrite Hsw, Hrq. intros Hsw0. destruct (Hwait Hsw0) as [Hcj0 Hcr0].
    split; [|assumption].
    destruct Hjq as [->|Hs]; [assumption|].
    by apply try_send_Sent in Hs as (_ & ? & _).
  - rewrite Hrq. destruct Hjq as [->|Hs]; [assumption|].
    apply try_send_Sent in Hs as (? & ? & _). congruence.
  - by rewrite Hq, Hd.
Qed.

Ltac count_lia :=
  repeat match goal with
         | H : pool_bounds _ _ |- _ => clear H
         | H : _ -> _ |- _ => clear H
         end;
  unfold alive_workers in *; simpl in *; lia.

Lemma step_bounds p e w w' :
  pool_bounds p w -> step e w = Some w' -> pool_bounds p w'.
Proof.
  intros HB Hs.
  assert (Hc : crashed w = false).
  { unfold step in Hs. by destruct (crashed w). }
  pose proof HB as [Hw Hcj Hcr Hj Ha Hrun Hwait Hcl2 Hcan].
  unfold step in Hs. rewrite Hc in Hs. revert Hs.
  destruct e as [pick job| |now|now| |k now|k pick| | | | |].
  - intros [= <-]. by apply do_submit_bounds.
  - destruct (at_select w) as [|n] eqn:Hn; [discriminate|].
    destruct (try_recv (jobQueue (wp w))); try discriminate.
    destruct (quit (wp w)) eqn:Hq; [discriminate|]. intros [= <-].
    constructor; simpl; try assumption; try (intros ?; congruence).
    + unfold alive_workers in *. simpl. count_lia.
    + by rewrite Hq.
  - destruct (at_select w) as [|n] eqn:Hn; [discriminate|].
    destruct (try_recv (jobQueue (wp w))) as [job q woken| |] eqn:Hrecv;
      [| |discriminate]; intros [= <-].
    + pose proof (try_recv_shorter _ _ _ _ Hrecv) as [Hlen _].
      apply try_recv_Received in Hrecv as (Hcl & Hrq & Hhd & Hcap & _).
      constructor; simpl; try assumption; rewrite ?Hcap, ?Hcl; try assumption.
      * lia.
      * unfold alive_workers in *. simpl. rewrite Hrq, Hhd, length_app. simpl. count_lia.
    + constructor; simpl; try assumption.
      unfold alive_workers in *. count_lia.
  - destruct (take_handed (jobQueue (wp w))) as [[job q]|] eqn:Ht; [|discriminate].
    intros [= <-].
    apply take_handed_Some in Ht as (Hhd & Hb & Hsq & Hrq & Hcl & Hcap).
    constructor; simpl; try assumption; rewrite ?Hcap, ?Hcl, ?Hb; try assumption.
    unfold alive_workers in *. simpl. rewrite Hhd in Ha.
    rewrite Hrq, length_app. simpl in *. count_lia.
  - destruct (at_select w) as [|n] eqn:Hn; [discriminate|].
    destruct (quit (wp w)) eqn:Hq; [|discriminate]. intros [= <-].
    constructor; simpl; try assumption.
    + count_lia.
    + rewrite Hq. discriminate.
    + by rewrite Hq.
  - destruct (running w !! k) as [[job start]|] eqn:Hk; [|discriminate].
    destruct (processJob now _ start job) as [w1| | |] eqn:Hp; intros [= <-].
    1: { pose proof (processJob_closed _ _ _ _ _ Hp) as Hsame.
      apply processJob_shape in Hp
        as (Hjq & Hwk & Hq & Hd & Hsw & Hcr1 & Hrn & Hcap & Hcl & Hal).
      simpl in *. apply lookup_lt_Some in Hk as Hlt.
      constructor; rewrite ?Hjq, ?Hwk, ?Hq, ?Hd, ?Hsw, ?Hcr1, ?Hcap, ?Hsame;
        try assumption.
      unfold alive_workers in *. rewrite Hjq, Hrn, length_delete by done. count_lia. }
    all: destruct (quit (wp w)) eqn:Hq; [by apply pool_bounds_crash|].
    all: destruct (Hrun eq_refl) as (_ & _ & Hopen & _).
    all: destruct (processJob_open now start job
                     (with_running (delete k (running w)) w) Hopen) as [w1 Hw1].
    all: congruence.
  - destruct (timers w !! k) as [[d job]|]; [|discriminate]. intros [= <-].
    apply do_submit_bounds. constructor; assumption.
  - destruct (rp w); try discriminate.
    destruct (try_recv (resultQueue (wp w))) as [r q woken| |] eqn:Hrecv;
      [| |discriminate]; intros [= <-].
    + pose proof (try_recv_shorter _ _ _ _ Hrecv) as [_ Hlen].
      apply try_recv_Received in Hrecv as (Hcl & _ & _ & Hcap & _).
      destruct woken as [s|]; constructor; simpl; try assumption;
        rewrite ?Hcap, ?Hcl; try assumption;
        unfold alive_workers in *; simpl in *; count_lia.
    + constructor; assumption.
  - destruct (rp w); try discriminate.
    destruct (try_recv (resultQueue (wp w))); try discriminate.
    intros [= <-]. constructor; assumption.
  - destruct (rp w); try discriminate.
    destruct (take_handed (resultQueue (wp w))) as [[r q]|] eqn:Ht; [|discriminate].
    intros [= <-]. apply take_handed_Some in Ht as (_ & _ & Hsq & _ & Hcl & Hcap).
    constructor; simpl; try assumption; rewrite ?Hcap, ?Hcl; try assumption.
    unfold alive_workers in *. simpl. rewrite Hsq. count_lia.
  - intros [= <-]. unfold Stop_begin.
    destruct (quit (wp w)) eqn:Hq; [by apply pool_bounds_crash|].
    destruct (Hrun eq_refl) as (_ & Hcj0 & Hcr0 & _).
    constructor; simpl; try assumption; try done.
    unfold alive_workers in *. simpl. count_lia.
  - destruct (stop_waiting w) eqn:Hsw; [|discriminate]. simpl.
    case_bool_decide as Halive; [|discriminate]. intros [= <-].
    assert (Hq : quit (wp w) = true).
    { destruct (quit (wp w)); [reflexivity|].
      destruct (Hrun eq_refl) as (_ & _ & _ & ? & _). congruence. }
    unfold Stop_end.
    destruct (chan_close (jobQueue (wp w))) as [jq| | |] eqn:Hjq;
      try by apply pool_bounds_crash.
    destruct (chan_close (resultQueue (wp w))) as [rq| | |] eqn:Hrq;
      try by apply pool_bounds_crash.
    unfold chan_close in Hjq, Hrq.
    destruct (closed (jobQueue (wp w))); [discriminate|].
    destruct (closed (resultQueue (wp w))); [discriminate|].
    destruct (sendq (jobQueue (wp w))) eqn:Hsj; [|discriminate].
    destruct (sendq (resultQueue (wp w))) eqn:Hsr; [|discriminate].
    injection Hjq as <-. injection Hrq as <-.
    constructor; simpl; try assumption; try done; try congruence.
    unfold alive_workers in *. simpl. count_lia.
Qed.

Lemma reachable_bounds p w :
  configured p -> reachable p w -> pool_bounds p w.
Proof.
  intros Hcfg [evs Hexec].
  assert (H0 : pool_bounds p (Start p)).
  { destruct (configured_empty p Hcfg) as [Hjq Hrq].
    assert (Hcap : 0 <= cap (jobQueue p)
                   /\ quit p = false /\ ctx_done p = false).
    { clear Hexec Hjq Hrq.
      induction Hcfg as [workers queueSize p Hnew|h p _ IH]; [|exact IH].
      unfold NewWorkerPool, make_chan in Hnew.
      destruct (Z.ltb_spec queueSize 0); [discriminate|]. injection Hnew as <-.
      simpl. repeat split. lia. }
    destruct Hcap as (Hcap & Hq & Hd).
    constructor; simpl; try reflexivity.
    - rewrite Hjq. unfold len. simpl. lia.
    - unfold alive_workers. simpl. rewrite Hjq, Hrq. simpl. lia.
    - intros _. rewrite Hjq, Hrq. simpl. by repeat split.
    - discriminate.
    - by rewrite Hjq, Hrq.
    - by rewrite Hq. }
  revert Hexec H0. generalize (Start p).
  induction evs as [|e evs IH]; intros w0; simpl.
  - by intros [= <-].
  - destruct (step e w0) as [w1|] eqn:Hs; [|discriminate].
    intros Hexec Hb. apply (IH w1 Hexec). by eapply step_bounds.
Qed.

Lemma configured_caps p :
  configured p ->
  cap (resultQueue p) = cap (jobQueue p) /\ 0 <= cap (jobQueue p).
Proof.
  induction 1 as [workers queueSize p Hnew|h p _ IH]; [|exact IH].
  unfold NewWorkerPool, make_chan in Hnew.
  destruct (Z.ltb_spec queueSize 0); [discriminate|]. injection Hnew as <-.
  simpl. split; [reflexivity | lia].
Qed.

(** X12.  In every world a started pool gets to, [GetStats] reports the
    number of workers and the queue capacity the pool was made with, a
    number of queued jobs and a number of pending results that are both
    between zero and that capacity, and the jobs being processed at the
    same time are at most as many as the workers. *)
Theorem pool_stats_bounds (p : WorkerPool) (w : World) :
  configured p -> reachable p w ->
  let s := GetStats (wp w) in
  Workers s = workers p
  /\ QueueCapacity s = QueueCapacity (GetStats p)
  /\ 0 <= QueuedJobs s <= QueueCapacity s
  /\ 0 <= PendingResults s <= QueueCapacity s
  /\ (length (running w) <= Z.to_nat (workers p))%nat.
Proof.
  intros Hcfg Hr.
  pose proof (reachable_bounds p w Hcfg Hr) as [Hw Hcj Hcr Hj Ha _ _ _ _].
  pose proof (reachable_bounded p w Hcfg Hr) as Hres.
  destruct (configured_caps p Hcfg) as [Hsame _].
  simpl. unfold alive_workers in Ha. unfold len in *.
  repeat split; try assumption; lia.
Qed.

(** A pool of two workers and a queue of four: one job is queued and one
    is being processed. *)
Lemma pool_stats_bounds_witness :
  let w := world_after [ESubmit true (new_job "j1" "t" 0 3); EWorkerRecv 1;
                        ESubmit true (new_job "j2" "t" 0 3)]
             (Start (new_pool 2 4)) in
  GetStats (wp w) = mkWorkerPoolStats 2 1 4 0
  /\ 0 <= QueuedJobs (GetStats (wp w)) <= QueueCapacity (GetStats (wp w))
  /\ (length (running w) <= 2)%nat.
Proof.
  intros w. split; [vm_compute; reflexivity|].
  destruct (pool_stats_bounds (new_pool 2 4) w) as (_ & _ & Hq & _ & Hrun).
  - eapply configured_new. by apply (NewWorkerPool_new_pool 2 4).
  - exists [ESubmit true (new_job "j1" "t" 0 3); EWorkerRecv 1;
            ESubmit true (new_job "j2" "t" 0 3)].
    vm_compute. reflexivity.
  - split; [exact Hq | exact Hrun].
Defined.

Lemma with_jobQueue_same p : with_jobQueue (jobQueue p) p = p.
Proof. by destruct p. Qed.

(** X13.  A producer submits a list of jobs to a pool that is not
    cancelled, whose job queue is open and has no worker waiting on it,
    and nothing else runs in between.  The jobs are accepted in order
    until the buffer is at capacity: the accepted jobs are appended to the
    buffer in the order submitted, and every later call returns
    [ErrQueueFull] and leaves the queue alone. *)
Theorem submit_overflow (jobs : list (bool * Job)) (p : WorkerPool) :
  ctx_done p = false -> closed (jobQueue p) = false ->
  recvq (jobQueue p) = 0%nat ->
  len (buf (jobQueue p)) <= cap (jobQueue p) ->
  let room := Z.to_nat (cap (jobQueue p) - len (buf (jobQueue p))) in
  exists q,
    submit_all p jobs
    = Ret (with_jobQueue q p,
           replicate (Nat.min room (length jobs)) None
           ++ replicate (length jobs - room) (Some ErrQueueFull))
    /\ buf q = buf (jobQueue p) ++ take room (jobs.*2)
    /\ cap q = cap (jobQueue p) /\ closed q = false
    /\ handed q = handed (jobQueue p).
Proof.
  revert p. induction jobs as [|[pick job] jobs IH]; intros p Hd Hc Hr Hl room.
  - exists (jobQueue p). simpl. rewrite with_jobQueue_same, Nat.min_0_r.
    rewrite take_nil, !app_nil_r. by repeat split.
  - simpl. destruct (Z.ltb_spec (len (buf (jobQueue p))) (cap (jobQueue p)))
      as [Hlt|Hge].
    + pose proof (try_send_room (jobQueue p) job Hc Hr Hlt) as Hs.
      remember (mkChan (cap (jobQueue p)) (buf (jobQueue p) ++ [job]) 0%nat
                  (sendq (jobQueue p)) (handed (jobQueue p)) false) as q1 eqn:Hq1.
      assert (Hq1' : buf q1 = buf (jobQueue p) ++ [job]
                     /\ cap q1 = cap (jobQueue p) /\ closed q1 = false
                     /\ recvq q1 = 0%nat /\ handed q1 = handed (jobQueue p))
        by (by subst q1).
      destruct Hq1' as (Hb1 & Hc1 & Hcl1 & Hr1 & Hh1). clear Hq1.
      assert (Hlen : len (buf q1) = len (buf (jobQueue p)) + 1).
      { rewrite Hb1. unfold len. rewrite length_app. simpl. lia. }
      destruct (IH (with_jobQueue q1 p)) as (q & Hsub & Hbuf & Hcap & Hcl & Hhd);
        try done.
      { simpl. rewrite Hlen, Hc1. lia. }
      simpl in Hsub, Hbuf, Hcap, Hhd. rewrite Hlen, Hc1 in Hsub, Hbuf.
      assert (Hroom : room = S (Z.to_nat (cap (jobQueue p)
                                          - (len (buf (jobQueue p)) + 1)))).
      { subst room. lia. }
      exists q. unfold SubmitJob. rewrite Hs, Hd.
      change (with_jobQueue q (with_jobQueue q1 p)) with (with_jobQueue q p) in Hsub.
      rewrite Hsub, Hroom. simpl. repeat split; try congruence.
      rewrite Hbuf, Hb1, <- app_assoc. reflexivity.
    + assert (Hfull : chan_full (jobQueue p)) by (split; [lia | assumption]).
      destruct (IH p) as (q & Hsub & Hbuf & Hcap & Hcl & Hhd); try done.
      assert (Hroom : room = 0%nat) by (subst room; lia).
      rewrite Hroom in *.
      assert (H0 : Z.to_nat (cap (jobQueue p) - len (buf (jobQueue p))) = 0%nat)
        by lia.
      rewrite H0 in Hsub, Hbuf.
      exists q. rewrite (SubmitJob_full pick p job Hd Hc Hfull), Hsub.
      simpl. rewrite Nat.sub_0_r. simpl in Hbuf. by repeat split.
Qed.

(** A new pool with a queue of two takes the first two of three jobs. *)
Lemma submit_overflow_witness :
  let j1 := new_job "j1" "t" 0 3 in
  let j2 := new_job "j2" "t" 0 3 in
  let j3 := new_job "j3" "t" 0 3 in
  exists q,
    submit_all (new_pool 1 2) [(true, j1); (true, j2); (true, j3)]
    = Ret (with_jobQueue q (new_pool 1 2), [None; None; Some ErrQueueFull])
    /\ buf q = [j1; j2].
Proof.
  intros j1 j2 j3.
  destruct (submit_overflow [(true, j1); (true, j2); (true, j3)] (new_pool 1 2))
    as (q & Hsub & Hbuf & _); try reflexivity.
  - vm_compute. discriminate.
  - exists q. split; [exact Hsub | exact Hbuf].
Defined.



(** ** WorkerPool: after Stop *)

Lemma step_quit e w w' :
  step e w = Some w' -> quit (wp w) = true -> quit (wp w') = true.
Proof.
  intros Hs Hq. unfold step in Hs. destruct (crashed w); [discriminate|].
  destruct e as [pick job| |now|now| |k now|k pick| | | | |].
  - injection Hs as <-.
    destruct (do_submit_shape pick job w) as (_ & _ & -> & _). exact Hq.
  - by rewrite Hq in Hs; destruct (at_select w), (try_recv (jobQueue (wp w))).
  - destruct (at_select w), (try_recv (jobQueue (wp w)));
      (injection Hs as <- || discriminate); exact Hq.
  - destruct (take_handed (jobQueue (wp w))) as [[job q]|];
      (injection Hs as <- || discriminate); exact Hq.
  - destruct (at_select w); [discriminate|]. rewrite Hq in Hs.
    injection Hs as <-. exact Hq.
  - destruct (running w !! k) as [[job start]|]; [|discriminate].
    destruct (processJob now _ start job) as [w1| | |] eqn:Hp;
      injection Hs as <-; try exact Hq.
    apply processJob_shape in Hp as (_ & _ & -> & _). exact Hq.
  - destruct (timers w !! k) as [[d job]|]; [|discriminate]. injection Hs as <-.
    destruct (do_submit_shape pick job (with_timers (delete k (timers w)) w))
      as (_ & _ & -> & _). exact Hq.
  - destruct (rp w); try discriminate.
    destruct (try_recv (resultQueue (wp w))) as [r q [s|]| |];
      (injection Hs as <- || discriminate); exact Hq.
  - destruct (rp w); try discriminate.
    destruct (try_recv (resultQueue (wp w)));
      (injection Hs as <- || discriminate); exact Hq.
  - destruct (rp w); try discriminate.
    destruct (take_handed (resultQueue (wp w))) as [[r q]|];
      (injection Hs as <- || discriminate); exact Hq.
  - injection Hs as <-. unfold Stop_begin. by rewrite Hq.
  - destruct (stop_waiting w && bool_decide (alive_workers w = 0%nat));
      [|discriminate]. injection Hs as <-. unfold Stop_end.
    destruct (chan_close (jobQueue (wp w))), (chan_close (resultQueue (wp w)));
      exact Hq.
Qed.

Lemma exec_quit evs w w' :
  exec evs w = Some w' -> quit (wp w) = true -> quit (wp w') = true.
Proof.
  revert w. induction evs as [|e evs IH]; intros w; simpl.
  - by intros [= <-].
  - destruct (step e w) as [w1|] eqn:Hs; [|discriminate].
    intros Hexec Hq. apply (IH w1 Hexec). by eapply step_quit.
Qed.

(** X15.  [Stop] is not idempotent: in a run in which [Stop] is called
    a second time, that call panics on the closed [quit] channel; the
    program dies there, so the second call is the last event of the
    run. *)
Theorem stop_twice_panics (p : WorkerPool) (evs1 evs2 evs3 : list event)
    (w : World) :
  exec (evs1 ++ EStop :: evs2 ++ EStop :: evs3) (Start p) = Some w ->
  crashed w = true /\ evs3 = [].
Proof.
  intros Hexec.
  apply exec_app in Hexec as (w1 & _ & Hexec). simpl in Hexec.
  destruct (step EStop w1) as [w2|] eqn:Hs1; [|discriminate].
  apply exec_app in Hexec as (w3 & H23 & Hexec). simpl in Hexec.
  destruct (step EStop w3) as [w4|] eqn:Hs2; [|discriminate].
  assert (Hq2 : quit (wp w2) = true).
  { unfold step in Hs1. destruct (crashed w1); [discriminate|].
    injection Hs1 as <-. unfold Stop_begin.
    destruct (quit (wp w1)) eqn:Hq1; [exact Hq1 | reflexivity]. }
  pose proof (exec_quit _ _ _ H23 Hq2) as Hq3.
  assert (Hc4 : crashed w4 = true).
  { unfold step in Hs2. destruct (crashed w3); [discriminate|].
    injection Hs2 as <-. unfold Stop_begin. by rewrite Hq3. }
  destruct evs3 as [|e evs3]; simpl in Hexec.
  - injection Hexec as <-. by split.
  - unfold step in Hexec. by rewrite Hc4 in Hexec.
Qed.

(** A pool of one worker is stopped, its worker returns, and [Stop] is
    called again. *)
Lemma stop_twice_panics_witness :
  crashed (world_after ([] ++ EStop :: [EWorkerQuit] ++ EStop :: [])
             (Start (new_pool 1 1))) = true.
Proof.
  apply (stop_twice_panics (new_pool 1 1) [] [EWorkerQuit] []).
  vm_compute. reflexivity.
Defined.

Lemma alive_none w :
  alive_workers w = 0%nat ->
  at_select w = 0%nat /\ handed (jobQueue (wp w)) = [] /\ running w = []
  /\ sendq (resultQueue (wp w)) = [].
Proof.
  unfold alive_workers. intros Ha.
  destruct (handed (jobQueue (wp w))), (running w), (sendq (resultQueue (wp w)));
    simpl in Ha; try lia.
  repeat split. lia.
Qed.

Lemma do_submit_closed pick job w :
  closed (jobQueue (wp w)) = true ->
  let w' := do_submit pick job w in
  wp w' = wp w /\ at_select w' = at_select w /\ running w' = running w
  /\ calls w' = calls w /\ published w' = published w /\ dropped w' = dropped w.
Proof.
  intros Hcl. unfold do_submit, SubmitJob, try_send. rewrite Hcl.
  destruct (ctx_done (wp w)), pick; simpl; repeat split; by destruct (wp w).
Qed.

(** Once both queues are closed and every worker has returned, an event
    leaves things so, calls no handler, publishes and drops no result and
    leaves the buffer of the job queue alone. *)
Lemma step_stopped e w w' :
  closed (jobQueue (wp w)) = true -> closed (resultQueue (wp w)) = true ->
  alive_workers w = 0%nat ->
  step e w = Some w' ->
  closed (jobQueue (wp w')) = true /\ closed (resultQueue (wp w')) = true
  /\ alive_workers w' = 0%nat
  /\ calls w' = calls w /\ published w' = published w /\ dropped w' = dropped w
  /\ buf (jobQueue (wp w')) = buf (jobQueue (wp w)).
Proof.
  intros Hcj Hcr Ha Hs.
  destruct (alive_none w Ha) as (Hat & Hhd & Hrn & Hsq).
  unfold step in Hs. destruct (crashed w); [discriminate|].
  destruct e as [pick job| |now|now| |k now|k pick| | | | |].
  - injection Hs as <-.
    destruct (do_submit_closed pick job w Hcj) as (Hwp & Has & Hrun & ? & ? & ?).
    unfold alive_workers. rewrite Hwp, Has, Hrun. by repeat split.
  - by rewrite Hat in Hs.
  - by rewrite Hat in Hs.
  - unfold take_handed in Hs. by rewrite Hhd in Hs.
  - by rewrite Hat in Hs.
  - by rewrite Hrn in Hs.
  - destruct (timers w !! k) as [[d job]|]; [|discriminate]. injection Hs as <-.
    destruct (do_submit_closed pick job (with_timers (delete k (timers w)) w) Hcj)
      as (Hwp & Has & Hrun & ? & ? & ?).
    unfold alive_workers. rewrite Hwp, Has, Hrun. by repeat split.
  - destruct (rp w); try discriminate.
    destruct (try_recv (resultQueue (wp w))) as [r q woken| |] eqn:Hrecv;
      [| |discriminate].
    + apply try_recv_Received in Hrecv as (Hcl & Hrq & _ & _ & _ & Hwk & _).
      rewrite Hsq in Hwk. destruct woken as [s|]; [discriminate|].
      simpl in Hwk. injection Hs as <-. unfold alive_workers in *. simpl.
      rewrite <- Hwk, Hcl. repeat split; try done. simpl in *. lia.
    + injection Hs as <-. by repeat split.
  - destruct (rp w); try discriminate.
    destruct (try_recv (resultQueue (wp w))) eqn:Hrecv; try discriminate.
    apply try_recv_WouldBlock in Hrecv as (_ & _ & ?). congruence.
  - destruct (rp w); try discriminate.
    destruct (take_handed (resultQueue (wp w))) as [[r q]|] eqn:Ht; [|discriminate].
    injection Hs as <-. apply take_handed_Some in Ht as (_ & _ & Hsq' & _ & Hcl & _).
    unfold alive_workers in *. simpl. rewrite Hsq', Hcl. repeat split; try done.
  - injection Hs as <-. unfold Stop_begin.
    destruct (quit (wp w)); [by repeat split|].
    unfold alive_workers in *. simpl. repeat split; try assumption. lia.
  - destruct (stop_waiting w && bool_decide (alive_workers w = 0%nat));
      [|discriminate]. injection Hs as <-.
    unfold Stop_end, chan_close. rewrite Hcj. by repeat split.
Qed.

(** X16.  Once [Stop] has returned (the job queue is closed), whatever
    happens afterwards calls no handler and publishes or drops no result,
    no job is being processed, and the jobs still in the buffer of the job
    queue stay there: they are never processed.  A later [SubmitJob]
    never queues its job: it panics when its select takes the send, and
    returns the context's error when it takes [ctx.Done()]. *)
Theorem stopped_pool_quiescent (p : WorkerPool) (w w' : World)
    (evs : list event) :
  configured p -> reachable p w -> closed (jobQueue (wp w)) = true ->
  exec evs w = Some w' ->
  calls w' = calls w /\ published w' = published w /\ dropped w' = dropped w
  /\ running w' = []
  /\ buf (jobQueue (wp w')) = buf (jobQueue (wp w))
  /\ (forall job, SubmitJob true (wp w') job = Panic
                  /\ SubmitJob false (wp w') job = Ret (wp w', Some Canceled)).
Proof.
  intros Hcfg Hr Hcj Hexec.
  assert (Hr' : reachable p w').
  { destruct Hr as [evs0 H0]. exists (evs0 ++ evs). apply exec_app. eauto. }
  pose proof (reachable_bounds p w Hcfg Hr) as [_ _ _ _ _ _ _ Hcl _].
  pose proof (reachable_inv p w Hcfg Hr) as [_ Hal _].
  assert (Hcr : closed (resultQueue (wp w)) = true) by congruence.
  specialize (Hal Hcr). clear Hr Hcl.
  assert (Hgoal : closed (jobQueue (wp w')) = true
                  /\ alive_workers w' = 0%nat
                  /\ calls w' = calls w /\ published w' = published w
                  /\ dropped w' = dropped w
                  /\ buf (jobQueue (wp w')) = buf (jobQueue (wp w))).
  { revert w Hcj Hcr Hal Hexec. induction evs as [|e evs IH]; intros w Hcj Hcr Hal; simpl.
    - intros [= <-]. by repeat split.
    - destruct (step e w) as [w1|] eqn:Hs; [|discriminate]. intros Hexec.
      destruct (step_stopped e w w1 Hcj Hcr Hal Hs)
        as (Hcj1 & Hcr1 & Hal1 & <- & <- & <- & <-).
      by apply IH. }
  destruct Hgoal as (Hcj' & Hal' & Hc & Hp & Hd & Hb).
  destruct (alive_none w' Hal') as (_ & _ & Hrn & _).
  repeat split; try assumption.
  - unfold SubmitJob, try_send. rewrite Hcj'.
    by destruct (ctx_done (wp w')).
  - pose proof (reachable_bounds p w' Hcfg Hr') as [_ _ _ _ _ Hrun _ _ Hcan].
    assert (Hq : quit (wp w') = true).
    { destruct (quit (wp w')); [reflexivity|].
      destruct (Hrun eq_refl) as (_ & ? & _). congruence. }
    unfold SubmitJob, try_send. by rewrite Hcj', (Hcan Hq).
Qed.

(** A pool of one worker is stopped with a job in its queue; a later
    submission is refused and the queued job is still there. *)
Lemma stopped_pool_quiescent_witness :
  let j1 := new_job "j1" "t" 0 3 in
  let w := world_after [ESubmit true j1; EStop; EWorkerQuit; EStopWaitDone]
             (Start (new_pool 1 1)) in
  let w' := world_after [ESubmit false (new_job "j2" "t" 0 3)] w in
  buf (jobQueue (wp w)) = [j1]
  /\ calls w' = [] /\ buf (jobQueue (wp w')) = buf (jobQueue (wp w)).
Proof.
  intros j1 w w'. split; [vm_compute; reflexivity|].
  destruct (stopped_pool_quiescent (new_pool 1 1) w w'
              [ESubmit false (new_job "j2" "t" 0 3)])
    as (Hc & _ & _ & _ & Hb & _).
  - eapply configured_new. by apply (NewWorkerPool_new_pool 1 1).
  - exists [ESubmit true j1; EStop; EWorkerQuit; EStopWaitDone].
    vm_compute. reflexivity.
  - vm_compute. reflexivity.
  - vm_compute. reflexivity.
  - split; [exact Hc | exact Hb].
Defined.

(** ** WorkerPool: results and jobs are accounted for *)

Lemma results_fifo_same w w' :
  results_fifo w ->
  resultQueue (wp w') = resultQueue (wp w) -> rp w' = rp w ->
  published w' = published w -> processed w' = processed w ->
  results_fifo w'.
Proof.
  intros [H1 H2 H3] Hq Hrp Hp Hpr.
  constructor; rewrite ?Hq, ?Hrp, ?Hp, ?Hpr; assumption.
Qed.

Lemma do_submit_fifo pick job w :
  results_fifo w -> results_fifo (do_submit pick job w).
Proof.
  intros Hf. apply (results_fifo_same w); [exact Hf|..].
  - apply do_submit_resultQueue.
  - unfold do_submit. by destruct (SubmitJob pick (wp w) job) as [[? [?|]]| | |].
  - unfold do_submit. by destruct (SubmitJob pick (wp w) job) as [[? [?|]]| | |].
  - unfold do_submit. by destruct (SubmitJob pick (wp w) job) as [[? [?|]]| | |].
Qed.

(** A completed send on the result queue. *)
Lemma sent_fifo r q w :
  results_fifo w -> try_send (resultQueue (wp w)) r = Sent q ->
  results_fifo
    (back_to_select (log_published r (with_wp (with_resultQueue q (wp w)) w))).
Proof.
  intros [H1 H2 H3] Hs.
  apply try_send_Sent in Hs as (_ & _ & _ & _ & Hcase).
  destruct Hcase as [(Hr & Hh & Hb)|(Hr & Hr' & Hb & Hh & _)].
  - destruct H2 as [H2|(H2 & Hrp & Hh0 & Hb0)]; [congruence|].
    assert (Hr0 : recvq q = 0%nat) by lia.
    constructor; simpl; rewrite ?Hh, ?Hb, ?Hr0, ?Hh0, ?Hb0.
    + rewrite H1, Hh0, Hb0. simpl. by rewrite !app_nil_r.
    + by left.
    + right. left. repeat split; try assumption. by exists r.
  - constructor; simpl; rewrite ?Hh, ?Hb, ?Hr'.
    + rewrite H1. by rewrite <- !app_assoc.
    + by left.
    + destruct H3 as [H3|[(? & ? & ?)|(? & ?)]]; auto.
Qed.

Lemma processJob_fifo now start job w w' :
  results_fifo w -> processJob now w start job = Ret w' -> results_fifo w'.
Proof.
  intros Hf. unfold processJob, send_or_drop, send_blocking.
  assert (Hlog : results_fifo (log_call job w))
    by (by apply (results_fifo_same w)).
  destruct (handlers (wp w) !! Type_ job) as [h|];
    [destruct (Handle h job); [destruct (Retries job <? MaxRetries job)|]|].
  - intros [= <-]. by apply (results_fifo_same w).
  - destruct (try_send (resultQueue (wp (log_call job w))) _) as [|q|] eqn:Hs;
      intros [= <-]; [by apply (sent_fifo _ _ (log_call job w))|].
    by apply (results_fifo_same w).
  - destruct (try_send (resultQueue (wp (log_call job w))) _) as [|q|] eqn:Hs;
      intros [= <-]; [by apply (sent_fifo _ _ (log_call job w))|].
    by apply (results_fifo_same w).
  - destruct (try_send (resultQueue (wp w)) _) as [|q|] eqn:Hs;
      intros [= <-]; [by apply sent_fifo|].
    destruct Hf as [H1 H2 H3]. constructor; simpl; assumption.
Qed.

Lemma step_fifo e w w' :
  results_fifo w -> step e w = Some w' -> results_fifo w'.
Proof.
  intros Hf Hs. unfold step in Hs. destruct (crashed w); [discriminate|].
  destruct e as [pick job| |now|now| |k now|k pick| | | | |].
  - injection Hs as <-. by apply do_submit_fifo.
  - destruct (at_select w), (try_recv (jobQueue (wp w))), (quit (wp w));
      (injection Hs as <- || discriminate); by apply (results_fifo_same w).
  - destruct (at_select w), (try_recv (jobQueue (wp w)));
      (injection Hs as <- || discriminate); by apply (results_fifo_same w).
  - destruct (take_handed (jobQueue (wp w))) as [[job q]|];
      (injection Hs as <- || discriminate); by apply (results_fifo_same w).
  - destruct (at_select w), (quit (wp w));
      (injection Hs as <- || discriminate); by apply (results_fifo_same w).
  - destruct (running w !! k) as [[job start]|]; [|discriminate].
    destruct (processJob now _ start job) as [w1| | |] eqn:Hp;
      injection Hs as <-; try by apply (results_fifo_same w).
    eapply processJob_fifo; [|exact Hp]. by apply (results_fifo_same w).
  - destruct (timers w !! k) as [[d job]|]; [|discriminate]. injection Hs as <-.
    apply do_submit_fifo. by apply (results_fifo_same w).
  - destruct (rp w) eqn:Hrp; try discriminate.
    destruct Hf as [H1 H2 H3].
    assert (Hr0 : recvq (resultQueue (wp w)) = 0%nat).
    { destruct H2 as [?|(_ & ? & _)]; [assumption | congruence]. }
    assert (Hh0 : handed (resultQueue (wp w)) = []).
    { destruct H3 as [?|[(? & _)|(? & _)]]; [assumption | congruence..]. }
    rewrite Hh0 in H1. simpl in H1. unfold try_recv in Hs.
    destruct (buf (resultQueue (wp w))) as [|v rest] eqn:Hb,
             (sendq (resultQueue (wp w))) as [|s ss] eqn:Hsq.
    + destruct (closed (resultQueue (wp w))); [|discriminate].
      injection Hs as <-.
      constructor; simpl; rewrite ?Hb, ?Hh0, ?Hr0; simpl; auto.
    + injection Hs as <-.
      constructor; simpl; rewrite ?Hh0, ?Hr0, ?Hrp; simpl; auto.
      by rewrite H1, !app_nil_r.
    + injection Hs as <-.
      constructor; simpl; rewrite ?Hh0, ?Hr0, ?Hrp; simpl; auto.
      by rewrite H1, <- app_assoc.
    + injection Hs as <-.
      constructor; simpl; rewrite ?Hh0, ?Hr0, ?Hrp; simpl; auto.
      by rewrite H1, <- !app_assoc.
  - destruct (rp w) eqn:Hrp; try discriminate.
    destruct Hf as [H1 H2 H3].
    assert (Hr0 : recvq (resultQueue (wp w)) = 0%nat).
    { destruct H2 as [?|(_ & ? & _)]; [assumption | congruence]. }
    assert (Hh0 : handed (resultQueue (wp w)) = []).
    { destruct H3 as [?|[(? & _)|(? & _)]]; [assumption | congruence..]. }
    destruct (try_recv (resultQueue (wp w))) eqn:Hrecv; try discriminate.
    apply try_recv_WouldBlock in Hrecv as (Hb & _).
    injection Hs as <-. rewrite Hh0, Hb in H1.
    constructor; simpl; rewrite ?Hh0, ?Hr0, ?Hb;
      [exact H1 | right; by repeat split | by left].
  - destruct (rp w) eqn:Hrp; try discriminate.
    destruct (take_handed (resultQueue (wp w))) as [[r q]|] eqn:Ht; [|discriminate].
    injection Hs as <-. apply take_handed_Some in Ht as (Hh & Hb & _ & Hr & _).
    destruct Hf as [H1 H2 H3].
    destruct H3 as [H3|[(_ & Hr0 & r0 & H3)|(? & _)]]; [congruence| |congruence].
    rewrite H3 in Hh. injection Hh as <- Hh.
    constructor; simpl; rewrite ?Hb, ?Hr, ?Hr0, <- ?Hh; auto.
    rewrite H1, H3. simpl. by rewrite <- app_assoc.
  - injection Hs as <-. unfold Stop_begin.
    destruct (quit (wp w)); by apply (results_fifo_same w).
  - destruct (stop_waiting w && bool_decide (alive_workers w = 0%nat));
      [|discriminate]. injection Hs as <-. unfold Stop_end.
    destruct (chan_close (jobQueue (wp w))) as [jq| | |];
      try by apply (results_fifo_same w).
    destruct (chan_close (resultQueue (wp w))) as [rq| | |] eqn:Hrq;
      try by apply (results_fifo_same w).
    apply chan_close_Ret in Hrq as (_ & _ & _ & _ & Hb & Hh & Hr).
    destruct Hf as [H1 H2 H3].
    constructor; simpl; rewrite ?Hb, ?Hh, ?Hr; auto.
    destruct H3 as [H3|[(Hrp & _)|(Hrp & _)]]; auto; rewrite Hrp; auto.
Qed.

(** X17.  The result queue is first in, first out, and
    [processResults] is its only receiver: in every world a started pool
    gets to, the results the workers sent are, in the order sent, those
    [processResults] has logged, followed by those still in the channel.
    No result that was sent is lost or logged twice, and the results are
    logged in the order in which they were sent. *)
Theorem results_in_order (p : WorkerPool) (w : World) :
  configured p -> reachable p w ->
  published w
  = processed w ++ handed (resultQueue (wp w)) ++ buf (resultQueue (wp w))
  /\ processed w `prefix_of` published w.
Proof.
  intros Hcfg [evs Hexec].
  assert (Hf : results_fifo w).
  { assert (H0 : results_fifo (Start p)).
    { destruct (configured_empty p Hcfg) as [_ Hrq].
      constructor; simpl; rewrite Hrq; simpl; auto. }
    revert Hexec H0. generalize (Start p).
    induction evs as [|e evs IH]; intros w0; simpl.
    - by intros [= <-].
    - destruct (step e w0) as [w1|] eqn:Hs; [|discriminate].
      intros Hexec Hb. apply (IH w1 Hexec). by eapply step_fifo. }
  destruct Hf as [H1 _ _]. split; [exact H1|]. rewrite H1. by eexists.
Qed.

(** Two jobs without a handler are processed by two workers, the second
    one finishing first: its result is sent and logged first. *)
Lemma results_in_order_witness :
  let j1 := new_job "j1" "t" 0 3 in
  let j2 := new_job "j2" "t" 0 3 in
  let w := world_after [ESubmit true j1; ESubmit true j2; EWorkerRecv 1;
                        EWorkerRecv 2; EHandlerDone 1 3; EHandlerDone 0 4;
                        EResultRecv]
             (Start (new_pool 2 2)) in
  processed w = [no_handler_result 3 2 j2]
  /\ published w = processed w ++ handed (resultQueue (wp w))
                   ++ buf (resultQueue (wp w)).
Proof.
  intros j1 j2 w. split; [vm_compute; reflexivity|].
  apply (results_in_order (new_pool 2 2) w).
  - eapply configured_new. by apply (NewWorkerPool_new_pool 2 2).
  - exists [ESubmit true j1; ESubmit true j2; EWorkerRecv 1;
            EWorkerRecv 2; EHandlerDone 1 3; EHandlerDone 0 4; EResultRecv].
    vm_compute. reflexivity.
Defined.

Lemma effect_ids H e J C P D R Q L' :
  effect H e J C P D R Q L' ->
  (forall pick j, e <> ESubmit pick j) ->
  ids_of L' ≡ₚ ids_of (mkLedger J C P D R Q).
Proof.
  intros Heff Hne.
  destruct Heff as [L' Hl|s Q0 L' HQ Hl|pick j L' He Hl|pick j L' He Hl
                   |j J0 L' HJ0 Hl|jb J0 nw st L' HJ0 Hh Hl|jb J0 nw st L' HJ0 Hh Hl
                   |jb J0 h L' HJ0 Hh He Hlt Hl|jb J0 h nw st L' HJ0 Hh Hf Hl
                   |jb J0 h nw st L' HJ0 Hh Hf Hl];
    try (by destruct (Hne pick j));
    destruct Hl as (HJ' & _ & HP & HD & HR & HQ');
    unfold ids_of; rewrite HJ', HP, HD, HR, HQ'; simpl;
    rewrite ?HQ, ?HJ0, ?fmap_app; simpl; solve_Permutation.
Qed.

Lemma exec_ids evs :
  forall w w',
    exec evs w = Some w' -> crashed w' = false ->
    ids_of (ledger_of w') ≡ₚ (ID <$> submitted evs) ++ ids_of (ledger_of w).
Proof.
  induction evs as [|e evs IH]; intros w w'; simpl.
  - by intros [= <-].
  - destruct (step e w) as [w1|] eqn:Hs; [|discriminate]. intros Hexec Hc'.
    assert (Hc1 : crashed w1 = false).
    { destruct (crashed w1) eqn:Hc1; [|reflexivity].
      apply (exec_crashed _ _ _ Hc1) in Hexec. congruence. }
    rewrite (IH w1 w' Hexec Hc').
    destruct (step_effect (handlers (wp w)) e w w1 eq_refl Hs) as (Hc & _ & Hcase).
    destruct Hcase as [(? & _)|(_ & Heff)]; [congruence|].
    destruct e as [pick job| |now|now| |k now|k pick| | | | |];
      try (simpl; by rewrite (effect_ids _ _ _ _ _ _ _ _ _ Heff)).
    unfold step in Hs. rewrite Hc in Hs. injection Hs as Hs.
    pose proof (do_submit_effect pick job w Hc) as Hsub. simpl in Hsub.
    rewrite Hs in Hsub.
    destruct Hsub as [(? & _)|(_ & [Hl|Hl])]; [congruence|..];
      destruct Hl as (HJ' & _ & HP & HD & HR & HQ');
      unfold ids_of; rewrite HJ', HP, HD, HR, HQ'; simpl;
      rewrite ?fmap_app; simpl; solve_Permutation.
Qed.

(** X18.  No job is lost or counted twice.  In every world a started
    pool gets to without the program dying, the identifiers of the jobs
    the producers submitted are, each as often as it was submitted, those
    of the jobs the pool still holds (queued, handed to a worker, being
    processed or waiting in a retry timer), of the jobs [SubmitJob]
    refused, and of the results published, dropped or waiting in the
    blocking send. *)
Theorem jobs_accounted (p : WorkerPool) (evs : list event) (w : World) :
  configured p -> exec evs (Start p) = Some w -> crashed w = false ->
  ID <$> submitted evs
  ≡ₚ (ID <$> jobs_in w) ++ (ID <$> rejected w) ++ (JobID <$> published w)
     ++ (JobID <$> dropped w) ++ (JobID <$> sendq (resultQueue (wp w))).
Proof.
  intros Hcfg Hexec Hc.
  pose proof (exec_ids evs (Start p) w Hexec Hc) as Hids.
  unfold ids_of at 2 in Hids. simpl in Hids.
  rewrite (Start_jobs_in p Hcfg) in Hids.
  destruct (configured_empty p Hcfg) as [_ Hrq]. rewrite Hrq in Hids.
  simpl in Hids. rewrite app_nil_r in Hids. symmetry. exact Hids.
Qed.

(** Two jobs are submitted to a pool with a queue of one: the first is
    processed without a handler and its result published, the second is
    queued, a third is refused. *)
Lemma jobs_accounted_witness :
  let j1 := new_job "j1" "t" 0 3 in
  let j2 := new_job "j2" "t" 0 3 in
  let j3 := new_job "j3" "t" 0 3 in
  let evs := [ESubmit true j1; EWorkerRecv 1; ESubmit true j2; ESubmit true j3;
              EHandlerDone 0 2] in
  let w := world_after evs (Start (new_pool 1 1)) in
  ID <$> submitted evs
  ≡ₚ (ID <$> jobs_in w) ++ (ID <$> rejected w) ++ (JobID <$> published w)
     ++ (JobID <$> dropped w) ++ (JobID <$> sendq (resultQueue (wp w))).
Proof.
  intros j1 j2 j3 evs w.
  apply (jobs_accounted (new_pool 1 1) evs w).
  - eapply configured_new. by apply (NewWorkerPool_new_pool 1 1).
  - vm_compute. reflexivity.
  - vm_compute. reflexivity.
Defined.
